(** * Local-scope completion for PHP (src/complete.ts)

    A shallow embedding of [getScope] and [localCompletionSource] together
    with the scope cache they share, and the properties of the completion
    engine established over it. *)

From Stdlib Require Import ZArith NArith Ascii String.
From stdpp Require Import base option list gmap strings.

Local Open Scope Z_scope.

(** ** JavaScript strings

    Document text and completion labels are JavaScript strings: sequences
    of UTF-16 code units.  Node kind names come from the grammar and are
    plain ASCII, so they are kept as [string]. *)

Abbreviation jsstring := (list N) (only parsing).

Definition js (s : string) : jsstring :=
  map N_of_ascii (list_ascii_of_string s).

(** [Text.sliceString(from, to)] / [state.sliceDoc(from, to)]. *)
Definition sliceString (doc : jsstring) (from to : Z) : jsstring :=
  take (Z.to_nat (to - from)) (drop (Z.to_nat from) doc).

(** ** Syntax trees

    The parser's tree is read-only for this module.  A node has an identity
    (what [NodeWeakMap] keys on), a kind name (empty for anonymous nodes),
    a range [from, to) and children. *)

#[local] Unset Elimination Schemes.
Inductive Tree : Type :=
  Node (key : nat) (name : string) (from to : Z) (children : list Tree).
#[local] Set Elimination Schemes.

Definition key (t : Tree) : nat := match t with Node k _ _ _ _ => k end.
Definition name (t : Tree) : string := match t with Node _ n _ _ _ => n end.
Definition from (t : Tree) : Z := match t with Node _ _ f _ _ => f end.
Definition to (t : Tree) : Z := match t with Node _ _ _ e _ => e end.
Definition children (t : Tree) : list Tree := match t with Node _ _ _ _ cs => cs end.

(** Modelled from the spec: [node.getChild(kindName)] of the external tree
    service (section 6) is the first direct child of the given kind, or
    [None] when there is none. *)
Definition getChild (kind : string) (t : Tree) : option Tree :=
  find (fun c => String.eqb (name c) kind) (children t).

(** A [SyntaxNode] handle as [resolveInner] returns it: the node together
    with the chain its [parent] links lead through, nearest first. *)
Record SyntaxNode := mkSyntaxNode {
  node : Tree;
  ancestors : list Tree
}.

Definition parent (n : SyntaxNode) : option SyntaxNode :=
  match ancestors n with
  | [] => None
  | p :: up => Some (mkSyntaxNode p up)
  end.

(** ** Completions and the store

    Candidate lists are JavaScript arrays: mutable objects with identity.
    The store holds every array allocated so far, addressed by location,
    and the module-level [cache] from node identity to array location. *)

Record Completion := mkCompletion {
  label : jsstring;
  type : string
}.

Abbreviation loc := nat (only parsing).

Record Store := mkStore {
  arrays : list (list Completion);
  cache : gmap nat loc
}.

Definition empty_store : Store := mkStore [] ∅.

(** [let completions = []] *)
Definition alloc (st : Store) : loc * Store :=
  (length (arrays st), mkStore (arrays st ++ [[]]) (cache st)).

(** [completions.push(c)] *)
Definition push (l : loc) (c : Completion) (st : Store) : Store :=
  mkStore (alter (fun a => a ++ [c]) l (arrays st)) (cache st).

(** The elements of the array at [l]. *)
Definition read (l : loc) (st : Store) : list Completion :=
  default [] (arrays st !! l).

(** [cache.get(node)] and [cache.set(node, completions)] *)
Definition cache_get (n : Tree) (st : Store) : option loc :=
  cache st !! key n.

Definition cache_set (n : Tree) (l : loc) (st : Store) : Store :=
  mkStore (arrays st) (<[key n := l]> (cache st)).

(** ** Scope kinds and definition extractors *)

Definition ScopeNodes : list string :=
  ["Script"; "Body"; "FunctionDefinition"; "ClassDefinition";
   "LambdaExpression"; "ForStatement"]%string.

Definition ScopeNodes_has (s : string) : bool :=
  existsb (String.eqb s) ScopeNodes.

(** The [def] callback handed to an extractor, and an extractor. *)
Definition Def := Tree -> string -> Store -> Store.
Definition Gather := Tree -> Def -> Store -> bool * Store.

Definition defID (type : string) : Gather :=
  fun node def st =>
    match getChild "VariableName" node with
    | Some id => (true, def id type st)
    | None => (true, st)
    end.

(** The own properties of the null-prototype object [gatherCompletions]. *)
Definition gatherCompletions_table : list (string * Gather) :=
  [("FunctionDefinition", defID "function");
   ("ClassDefinition", defID "class")]%string.

(** [gatherCompletions[name]]: an own property or [undefined]. *)
Definition gatherCompletions (name : string) : option Gather :=
  snd <$> find (fun p => String.eqb (fst p) name) gatherCompletions_table.

(** ** getScope *)

(** The closure [def] of [getScope], writing to the array [completions]. *)
Definition def (doc : jsstring) (completions : loc) : Def :=
  fun node type st =>
    let name := sliceString doc (from node) (to node) in
    push completions (mkCompletion name type) st.

(** [for (let c of cs) completions.push(c)], for [cs] an array other than
    [completions]. *)
Definition push_all (completions : loc) (cs : list Completion) (st : Store) : Store :=
  fold_left (fun s c => push completions c s) cs st.

(** Modelled from the spec: the tree walker (section 4.1) visits the root
    and then every descendant in pre-order, anonymous nodes included, and
    skips the children of a node for which the callback answers [false].
    [iterate_children visit node] is the part of the walk below [node];
    [visit] stands for the callback on a descendant followed by the walk
    below that descendant when the callback did not prune it. *)
Definition iterate_children (visit : Tree -> Store -> Store) (node : Tree) (st : Store) : Store :=
  fold_left (fun s c => visit c s) (children node) st.

(** The body of [getScope] on [node], given the walk that is run on a cache
    miss.  On the first visited node [top] is true: the callback clears it
    and lets the walk descend. *)
Definition getScope_body (walk : loc -> Tree -> Store -> Store) (node : Tree) (st : Store) : loc * Store :=
  match cache_get node st with
  | Some cached => (cached, st)
  | None =>
      let '(completions, st1) := alloc st in
      let st2 := iterate_children (walk completions) node st1 in
      (completions, cache_set node completions st2)
  end.

(** [enter doc completions node]: the callback of [getScope] on a node
    other than the root of the walk ([top] is false by then), followed by
    the walk below [node] unless the callback returned [false]. *)
Fixpoint enter (doc : jsstring) (completions : loc) (node : Tree) (st : Store) {struct node} : Store :=
  let descend := iterate_children (enter doc completions) node in
  if negb (String.eqb (name node) "") then
    match gatherCompletions (name node) with
    | Some gather =>
        let '(handled, st1) := gather node (def doc completions) st in
        if handled || ScopeNodes_has (name node) then st1 else descend st1
    | None =>
        if ScopeNodes_has (name node) then st else descend st
    end
  else if to node - from node >? 8192 then
    let '(inner, st1) := getScope_body (enter doc) node st in
    push_all completions (read inner st1) st1
  else descend st.

Definition getScope (doc : jsstring) (node : Tree) (st : Store) : loc * Store :=
  getScope_body (enter doc) node st.

(** ** The completion source *)

(** Character classes of the regular expression
    [/^[\w\xa1-\uffff][\w\d\xa1-\uffff]*$/], over UTF-16 code units. *)
Definition in_range (lo hi c : N) : bool := ((lo <=? c) && (c <=? hi))%N.

(** [\d] *)
Definition class_d (c : N) : bool := in_range 48 57 c.

(** [\w]: ASCII letters, digits and the underscore. *)
Definition class_w (c : N) : bool :=
  in_range 65 90 c || in_range 97 122 c || in_range 48 57 c || (c =? 95)%N.

(** [[\w\xa1-\uffff]] and [[\w\d\xa1-\uffff]] *)
Definition Identifier_first (c : N) : bool :=
  class_w c || in_range 161 65535 c.

Definition Identifier_rest (c : N) : bool :=
  class_w c || class_d c || in_range 161 65535 c.

(** [Identifier.test(s)]: the pattern is anchored at both ends, so the
    whole string is one character of the first class followed by any number
    of characters of the second. *)
Definition Identifier_test (s : jsstring) : bool :=
  match s with
  | [] => false
  | c :: rest => Identifier_first c && forallb Identifier_rest rest
  end.

Definition dontComplete : list string :=
  ["String"; "FormatString"; "Comment"; "PropertyName"]%string.

(** [Array.prototype.indexOf]: the first index holding [s], or [-1]. *)
Fixpoint indexOf_from (i : Z) (l : list string) (s : string) : Z :=
  match l with
  | [] => -1
  | x :: l' => if String.eqb x s then i else indexOf_from (i + 1) l' s
  end.

Definition indexOf (l : list string) (s : string) : Z := indexOf_from 0 l s.

(** A completion request.  [resolveInner] holds what
    [syntaxTree(context.state).resolveInner(context.pos, -1)] answers for
    it; the parser that computes it is outside this module. *)
Record CompletionContext := mkContext {
  state_doc : jsstring;
  pos : Z;
  explicit : bool;
  resolveInner : SyntaxNode
}.

Record CompletionResult := mkResult {
  options : list Completion;
  result_from : Z;
  validFor : jsstring -> bool
}.

(** The loop [for (pos = inner; pos; pos = pos.parent)] over the chain of
    [parent] links, with [options = options.concat(getScope(doc, pos))] at
    every scope node. *)
Fixpoint ancestor_loop (doc : jsstring) (chain : list Tree) (options : list Completion) (st : Store) : list Completion * Store :=
  match chain with
  | [] => (options, st)
  | pos :: up =>
      if ScopeNodes_has (name pos) then
        let '(scope, st1) := getScope doc pos st in
        ancestor_loop doc up (options ++ read scope st1) st1
      else ancestor_loop doc up options st
  end.

Definition isWord_of (context : CompletionContext) : bool :=
  let inner := node (resolveInner context) in
  String.eqb (name inner) "VariableName" ||
  ((to inner - from inner <? 20) &&
   Identifier_test (sliceString (state_doc context) (from inner) (to inner))).

Definition localCompletionSource (context : CompletionContext) (st : Store) : option CompletionResult * Store :=
  let inner := resolveInner context in
  if indexOf dontComplete (name (node inner)) >? -1 then (None, st)
  else
    let isWord := isWord_of context in
    if negb isWord && negb (explicit context) then (None, st)
    else
      let '(options, st1) :=
        ancestor_loop (state_doc context) (node inner :: ancestors inner) [] st in
      (Some (mkResult options
                      (if isWord then from (node inner) else pos context)
                      Identifier_test), st1).

(** ** Cache-free reading of a scope

    What the walk of [getScope] pushes when nothing is cached: the
    candidates a visited node contributes, and those of a whole scope. *)

Definition name_candidate (doc : jsstring) (type : string) (node : Tree) : list Completion :=
  match getChild "VariableName" node with
  | Some id => [mkCompletion (sliceString doc (from id) (to id)) type]
  | None => []
  end.

Fixpoint contribution (doc : jsstring) (node : Tree) : list Completion :=
  let below := flat_map (contribution doc) (children node) in
  if String.eqb (name node) "FunctionDefinition" then name_candidate doc "function" node
  else if String.eqb (name node) "ClassDefinition" then name_candidate doc "class" node
  else if ScopeNodes_has (name node) then []
  else below.

Definition scope_candidates (doc : jsstring) (node : Tree) : list Completion :=
  flat_map (contribution doc) (children node).

(** A node for which the callback takes the branch of large anonymous
    nodes. *)
Definition big_anonymous (t : Tree) : bool :=
  String.eqb (name t) "" && (to t - from t >? 8192).

(** The nodes on which the walk below and including [node] calls
    [getScope]: the large anonymous nodes it reaches without entering a
    pruned subtree and without entering one of them. *)
Fixpoint nested_scopes (node : Tree) : list Tree :=
  if String.eqb (name node) "" then
    if to node - from node >? 8192 then [node]
    else flat_map nested_scopes (children node)
  else match gatherCompletions (name node) with
       | Some _ => []
       | None => if ScopeNodes_has (name node) then []
                 else flat_map nested_scopes (children node)
       end.

(** Every node of a tree, in pre-order. *)
Fixpoint nodes (t : Tree) : list Tree :=
  t :: flat_map nodes (children t).

Local Close Scope Z_scope.

(** ** Well-formed stores and frames

    A store is well formed when every cached location is allocated; the
    array [l] is under construction when it is allocated and not cached
    yet, as [completions] is throughout the walk that fills it. *)

Definition store_wf (st : Store) : Prop :=
  forall k l, cache st !! k = Some l -> l < length (arrays st).

Definition building (l : loc) (st : Store) : Prop :=
  l < length (arrays st) /\ forall k, cache st !! k <> Some l.

(** [frame l added st st']: from [st] to [st'] the array [l] gained
    [added] at its end, every other allocated array is untouched, cache
    entries were only added, and the new ones point to new arrays. *)
Definition frame (l : loc) (added : list Completion) (st st' : Store) : Prop :=
  length (arrays st) <= length (arrays st') /\
  (forall i, i < length (arrays st) -> i <> l -> arrays st' !! i = arrays st !! i) /\
  (forall a, arrays st !! l = Some a -> arrays st' !! l = Some (a ++ added)) /\
  cache st ⊆ cache st' /\
  (forall k l', cache st' !! k = Some l' ->
     cache st !! k = Some l' \/ length (arrays st) <= l' < length (arrays st')).

(** ** Consistent caches

    [U] is the set of nodes the cache is used for: the nodes of one syntax
    tree, where distinct nodes have distinct identities.  A cache is
    consistent for [doc] when each entry of a node of [U] holds that
    node's scope candidates. *)

Definition cache_ok (doc : jsstring) (U : Tree -> Prop) (st : Store) : Prop :=
  forall t l, U t -> cache st !! key t = Some l ->
    arrays st !! l = Some (scope_candidates doc t).

(** What is proved of the walk below and including one node. *)
Definition enter_ok (doc : jsstring) (U : Tree -> Prop) (t : Tree) : Prop :=
  forall l st, exists added,
    frame l added st (enter doc l t st) /\
    (U t -> store_wf st -> building l st -> cache_ok doc U st ->
     added = contribution doc t /\ cache_ok doc U (enter doc l t st)).

(** Distinct nodes of the tree have distinct identities. *)
Definition unique_keys (root : Tree) : Prop := NoDup (map key (nodes root)).

(** The nodes of the tree rooted at [root]. *)
Definition in_tree (root t : Tree) : Prop := t ∈ nodes root.

(** The chain of a handle lies in the tree rooted at [root]: every link
    leads from a node to one it is properly nested in, up to [root]. *)
Fixpoint chain_in (root t : Tree) (up : list Tree) : Prop :=
  match up with
  | [] => t = root
  | p :: up' => t ∈ flat_map nodes (children p) /\ chain_in root p up'
  end.

Definition resolved_in (root : Tree) (n : SyntaxNode) : Prop :=
  chain_in root (node n) (ancestors n).

(** The scope nodes on the chain from the resolved node upwards, innermost
    first, as the loop of [localCompletionSource] meets them. *)
Definition scope_chain (n : SyntaxNode) : list Tree :=
  List.filter (fun t => ScopeNodes_has (name t)) (node n :: ancestors n).

(** The result a request has when every scope is read without a cache. *)
Definition expected_result (context : CompletionContext) : option CompletionResult :=
  let inner := node (resolveInner context) in
  if (indexOf dontComplete (name inner) >? -1)%Z then None
  else if negb (isWord_of context) && negb (explicit context) then None
  else Some (mkResult
               (flat_map (scope_candidates (state_doc context))
                         (scope_chain (resolveInner context)))
               (if isWord_of context then from inner else pos context)
               Identifier_test).

(** Stores that earlier requests over one document and tree leave behind,
    starting from the empty cache. *)
Inductive warm (doc : jsstring) (root : Tree) : Store -> Prop :=
| warm_cold : warm doc root empty_store
| warm_request context st :
    warm doc root st -> state_doc context = doc ->
    resolved_in root (resolveInner context) ->
    warm doc root (snd (localCompletionSource context st))
| warm_scope t st :
    warm doc root st -> in_tree root t ->
    warm doc root (snd (getScope doc t st)).

(** Stores at any later time: after any further calls into the module. *)
Inductive later : Store -> Store -> Prop :=
| later_now st : later st st
| later_getScope doc t st1 st2 :
    later st1 st2 -> later st1 (snd (getScope doc t st2))
| later_request context st1 st2 :
    later st1 st2 -> later st1 (snd (localCompletionSource context st2)).

(** After the walk below and including [t]: every node the walk called
    [getScope] on is cached; new keys belong to large anonymous nodes; and
    a walk that makes no such call leaves the cache as it was. *)
Definition cache_effect (doc : jsstring) (t : Tree) : Prop :=
  forall l st,
    (forall a, a ∈ nested_scopes t -> is_Some (cache (enter doc l t st) !! key a)) /\
    (forall k, is_Some (cache (enter doc l t st) !! k) ->
       is_Some (cache st !! k) \/
       exists a, a ∈ nodes t /\ big_anonymous a = true /\ key a = k) /\
    (nested_scopes t = [] -> cache (enter doc l t st) = cache st).

(** ** What a scope shows

    [visible t d]: the walk that visits [t] reaches [d], through nodes that
    are no scope nodes.  [defines doc d c]: [d] is a definition node whose
    name gives the candidate [c]. *)

Inductive visible : Tree -> Tree -> Prop :=
| visible_here t : visible t t
| visible_below t c d :
    ScopeNodes_has (name t) = false -> c ∈ children t -> visible c d ->
    visible t d.

Definition defines (doc : jsstring) (d : Tree) (c : Completion) : Prop :=
  exists id,
    getChild "VariableName" d = Some id /\
    label c = sliceString doc (from id) (to id) /\
    ((name d = "FunctionDefinition"%string /\ type c = "function"%string) \/
     (name d = "ClassDefinition"%string /\ type c = "class"%string)).

(** The two kind tags local completion gives out. *)
Definition tagged (c : Completion) : Prop :=
  type c = "function"%string \/ type c = "class"%string.

Definition all_tagged (st : Store) : Prop :=
  Forall (Forall tagged) (arrays st).

Local Open Scope Z_scope.

(** ** Worked example: [function foo($x) { class Bar {} }] as a script *)

Module Example.

Definition text : jsstring := js "function foo($x) { class Bar {} }".

Definition bar_name : Tree := Node 10 "VariableName" 25 28 [].

Definition bar : Tree :=
  Node 8 "ClassDefinition" 19 31
    [Node 9 "class" 19 24 []; bar_name; Node 11 "Body" 29 31 []].

Definition brace : Tree := Node 12 "{" 17 18 [].

Definition body : Tree := Node 7 "Body" 17 33 [brace; bar].

Definition foo : Tree :=
  Node 2 "FunctionDefinition" 0 33
    [Node 3 "function" 0 8 []; Node 4 "VariableName" 9 12 [];
     Node 5 "ParamList" 12 16 [Node 6 "VariableName" 13 15 []];
     body].

Definition script : Tree := Node 1 "Script" 0 33 [foo].

(** The cursor right after [Bar]. *)
Definition at_bar : SyntaxNode :=
  mkSyntaxNode bar_name [bar; body; foo; script].

Definition request (explicit : bool) : CompletionContext :=
  mkContext text 28 explicit at_bar.

(** The cursor right after the opening brace of the function body. *)
Definition at_brace : SyntaxNode := mkSyntaxNode brace [body; foo; script].

(** The cursor in the blank after that brace, where the innermost node is
    the body itself. *)
Definition at_body : SyntaxNode := mkSyntaxNode body [foo; script].

Definition foo_candidate : Completion := mkCompletion (js "foo") "function".
Definition bar_candidate : Completion := mkCompletion (js "Bar") "class".

End Example.

(** ** Worked example: a script made of two wide anonymous nodes, one of
    them over the threshold *)

Module Wide.

Definition text : jsstring :=
  js "function foo() { }" ++ repeat 32%N (Z.to_nat 8482) ++ js "class Bar { }".

Definition foo : Tree :=
  Node 22 "FunctionDefinition" 0 18
    [Node 23 "VariableName" 9 12 []; Node 24 "Body" 15 18 []].

Definition large : Tree := Node 21 "" 0 8500 [foo].

Definition bar : Tree :=
  Node 26 "ClassDefinition" 8500 8513 [Node 27 "VariableName" 8506 8509 []].

Definition small : Tree := Node 25 "" 8500 8513 [bar].

Definition script : Tree := Node 20 "Script" 0 8513 [large; small].

End Wide.

(** ** Worked example: [function ($x) { }], a definition without a name *)

Module Nameless.

Definition text : jsstring := js "function ($x) { }".

Definition definition : Tree :=
  Node 2 "FunctionDefinition" 0 17
    [Node 3 "function" 0 8 [];
     Node 4 "ParamList" 9 13 [Node 5 "VariableName" 10 12 []];
     Node 6 "Body" 14 17 []].

Definition script : Tree := Node 1 "Script" 0 17 [definition].

End Nameless.

(** ** Worked example: the script of [Example] after its text was replaced *)

Module Edited.

Definition text : jsstring := js "function baz($x) { class Qux {} }".

(** A request whose resolved node is no scope node and has none above. *)
Definition stray : SyntaxNode := mkSyntaxNode (Node 40 ";" 3 4 []) [Node 41 "Statement" 0 4 []].

End Edited.

Local Close Scope Z_scope.

(** * Properties *)

Ltac solve_in_list := apply list_elem_of_In; cbn; intuition.

(** ** Induction over syntax trees *)

Lemma Tree_ind (P : Tree -> Prop) :
  (forall k n f e cs, Forall P cs -> P (Node k n f e cs)) -> forall t, P t.
Proof.
  intros step. fix IH 1. intros [k n f e cs]. apply step.
  induction cs as [|c cs IHcs]; constructor; [apply IH|apply IHcs].
Qed.

(** ** One step of the definitions *)

(** The chain the loop of [localCompletionSource] runs over is the one the
    [parent] links give. *)
Lemma parent_chain n :
  node n :: ancestors n =
  node n :: match parent n with
            | Some p => node p :: ancestors p
            | None => []
            end.
Proof. unfold parent. by destruct (ancestors n). Qed.

Lemma gatherCompletions_cases (n : string) :
  (n = "FunctionDefinition"%string /\ gatherCompletions n = Some (defID "function")) \/
  (n = "ClassDefinition"%string /\ gatherCompletions n = Some (defID "class")) \/
  (n <> "FunctionDefinition"%string /\ n <> "ClassDefinition"%string /\
   gatherCompletions n = None).
Proof.
  unfold gatherCompletions, gatherCompletions_table; cbn [find fst snd].
  destruct (String.eqb_spec "FunctionDefinition" n) as [<-|H1]; [by left|].
  destruct (String.eqb_spec "ClassDefinition" n) as [<-|H2]; [by right; left|].
  right; right; repeat split; congruence.
Qed.

Lemma push_all_app l cs1 cs2 st :
  push_all l (cs1 ++ cs2) st = push_all l cs2 (push_all l cs1 st).
Proof. unfold push_all. by rewrite fold_left_app. Qed.

(** What an extractor built by [defID] does with the closure [def]. *)
Lemma defID_def doc l ty t st :
  defID ty t (def doc l) st = (true, push_all l (name_candidate doc ty t) st).
Proof.
  unfold defID, name_candidate, def.
  by destruct (getChild "VariableName" t).
Qed.

Lemma enter_unfold doc l t st :
  enter doc l t st =
  let descend := iterate_children (enter doc l) t in
  if negb (String.eqb (name t) "") then
    match gatherCompletions (name t) with
    | Some gather =>
        let '(handled, st1) := gather t (def doc l) st in
        if handled || ScopeNodes_has (name t) then st1 else descend st1
    | None => if ScopeNodes_has (name t) then st else descend st
    end
  else if (to t - from t >? 8192)%Z then
    let '(inner, st1) := getScope doc t st in
    push_all l (read inner st1) st1
  else descend st.
Proof. by destruct t. Qed.

Lemma contribution_unfold doc t :
  contribution doc t =
  if String.eqb (name t) "FunctionDefinition" then name_candidate doc "function" t
  else if String.eqb (name t) "ClassDefinition" then name_candidate doc "class" t
  else if ScopeNodes_has (name t) then []
  else scope_candidates doc t.
Proof. by destruct t. Qed.

(** ** How a walk changes the store: the frame *)

Lemma store_wf_empty : store_wf empty_store.
Proof. intros k l. cbn. by rewrite lookup_empty. Qed.

Lemma frame_refl l st : frame l [] st st.
Proof.
  repeat split; auto.
  intros a Ha. by rewrite app_nil_r.
Qed.

Lemma frame_trans l a1 a2 st st1 st2 :
  frame l a1 st st1 -> frame l a2 st1 st2 -> frame l (a1 ++ a2) st st2.
Proof.
  intros (Hlen1 & Hoth1 & Hl1 & Hsub1 & Hnew1) (Hlen2 & Hoth2 & Hl2 & Hsub2 & Hnew2).
  repeat split.
  - lia.
  - intros i Hi Hne. rewrite Hoth2 by lia. by apply Hoth1.
  - intros a Ha. rewrite app_assoc. by apply Hl2, Hl1.
  - by etrans.
  - intros k l' Hk. destruct (Hnew2 _ _ Hk) as [Hk1|?]; [|right; lia].
    destruct (Hnew1 _ _ Hk1) as [?|?]; [by left|right; lia].
Qed.

Lemma frame_push l c st : frame l [c] st (push l c st).
Proof.
  unfold push; repeat split; cbn [arrays cache].
  - by rewrite length_alter.
  - intros i _ Hne. by rewrite list_lookup_alter_ne.
  - intros a Ha. by rewrite list_lookup_alter_eq, Ha.
  - done.
  - auto.
Qed.

Lemma frame_push_all l cs st : frame l cs st (push_all l cs st).
Proof.
  revert st. induction cs as [|c cs IH]; intros st.
  - apply frame_refl.
  - change (c :: cs) with ([c] ++ cs). rewrite push_all_app.
    eapply frame_trans; [apply frame_push|apply IH].
Qed.

Lemma frame_store_wf l added st st' :
  frame l added st st' -> store_wf st -> store_wf st'.
Proof.
  intros (Hlen & _ & _ & _ & Hnew) Hwf k l' Hk.
  destruct (Hnew _ _ Hk) as [Hold|?]; [|lia].
  apply Hwf in Hold. lia.
Qed.

Lemma frame_building l added st st' :
  frame l added st st' -> building l st -> building l st'.
Proof.
  intros (Hlen & _ & _ & _ & Hnew) [Hl Hnc]. split; [lia|].
  intros k Hk. destruct (Hnew _ _ Hk) as [Hold|?]; [|lia].
  by apply (Hnc k).
Qed.

Lemma frame_read l added st st' :
  frame l added st st' -> l < length (arrays st) ->
  read l st' = read l st ++ added.
Proof.
  intros (_ & _ & Hl & _) Hlt.
  destruct (lookup_lt_is_Some_2 _ _ Hlt) as [a Ha].
  unfold read. by rewrite (Hl _ Ha), Ha.
Qed.

Lemma building_alloc st :
  store_wf st -> building (length (arrays st)) (snd (alloc st)).
Proof.
  intros Hwf. split; cbn [alloc snd arrays cache].
  - rewrite length_app; cbn; lia.
  - intros k Hk. apply Hwf in Hk. lia.
Qed.

Lemma store_wf_alloc st : store_wf st -> store_wf (snd (alloc st)).
Proof.
  intros Hwf k l Hk. cbn [alloc snd arrays cache] in *.
  apply Hwf in Hk. rewrite length_app. lia.
Qed.

(** The miss path of [getScope] as seen from any array [l]: allocate
    [completions], run a walk that only appends to it, cache it. *)
Lemma frame_miss l added n st st2 :
  cache st !! key n = None ->
  frame (length (arrays st)) added (snd (alloc st)) st2 ->
  frame l [] st (cache_set n (length (arrays st)) st2).
Proof.
  intros Hmiss (Hlen & Hoth & Hl & Hsub & Hnew). cbn [alloc snd arrays cache] in *.
  rewrite length_app in *; cbn [length] in *.
  assert (Hkeep : forall i, i < length (arrays st) ->
                    arrays st2 !! i = arrays st !! i).
  { intros i Hi. rewrite Hoth by lia. by rewrite lookup_app_l. }
  repeat split; cbn [cache_set arrays cache].
  - lia.
  - intros i Hi _. by apply Hkeep.
  - intros a Ha. rewrite app_nil_r, <- Ha. apply Hkeep.
    by eapply lookup_lt_Some.
  - by apply insert_subseteq_r.
  - intros k l' Hk. destruct (decide (key n = k)) as [<-|Hne].
    + rewrite lookup_insert_eq in Hk. right. simplify_eq. lia.
    + rewrite lookup_insert_ne in Hk by done.
      destruct (Hnew _ _ Hk) as [?|?]; [by left|right; lia].
Qed.

(** ** The two paths of [getScope] *)

Lemma cache_push_all l cs st : cache (push_all l cs st) = cache st.
Proof.
  revert st. induction cs as [|c cs IH]; intros st; [done|].
  change (push_all l (c :: cs) st) with (push_all l cs (push l c st)).
  by rewrite IH.
Qed.

Lemma getScope_hit doc t st l :
  cache st !! key t = Some l -> getScope doc t st = (l, st).
Proof. intros H. unfold getScope, getScope_body, cache_get. by rewrite H. Qed.

Lemma getScope_miss doc t st :
  cache st !! key t = None ->
  getScope doc t st =
  (length (arrays st),
   cache_set t (length (arrays st))
     (iterate_children (enter doc (length (arrays st))) t (snd (alloc st)))).
Proof. intros H. unfold getScope, getScope_body, cache_get. by rewrite H. Qed.

(** ** The walk against the cache-free reading *)

Section Soundness.

Variable doc : jsstring.
Variable U : Tree -> Prop.
Hypothesis U_children : forall t c, U t -> c ∈ children t -> U c.
Hypothesis key_inj : forall t1 t2, U t1 -> U t2 -> key t1 = key t2 -> t1 = t2.

Lemma cache_ok_push_all l cs st :
  (forall k, cache st !! k <> Some l) ->
  cache_ok doc U st -> cache_ok doc U (push_all l cs st).
Proof.
  intros Hnc Hok t l' Ut Hk. rewrite cache_push_all in Hk.
  pose proof (Hok _ _ Ut Hk) as Ha.
  destruct (frame_push_all l cs st) as (_ & Hoth & _).
  rewrite Hoth; [done|by eapply lookup_lt_Some|].
  intros ->. by apply (Hnc (key t)).
Qed.

Lemma cache_ok_alloc st : cache_ok doc U st -> cache_ok doc U (snd (alloc st)).
Proof.
  intros Hok t l Ut Hk. cbn [alloc snd arrays cache] in *.
  apply lookup_app_l_Some. by apply Hok.
Qed.

Lemma cache_ok_set t l st :
  U t -> cache_ok doc U st ->
  arrays st !! l = Some (scope_candidates doc t) ->
  cache_ok doc U (cache_set t l st).
Proof.
  intros Ut Hok Ha t' l' Ut' Hk. cbn [cache_set arrays cache] in *.
  destruct (decide (key t = key t')) as [Heq|Hne].
  - rewrite Heq, lookup_insert_eq in Hk. simplify_eq.
    by rewrite <- (key_inj _ _ Ut Ut' Heq).
  - rewrite lookup_insert_ne in Hk by done. by apply Hok.
Qed.

Lemma walk_children_ok cs :
  Forall (enter_ok doc U) cs ->
  forall l st, exists added,
    frame l added st (fold_left (fun s c => enter doc l c s) cs st) /\
    (Forall U cs -> store_wf st -> building l st -> cache_ok doc U st ->
     added = flat_map (contribution doc) cs /\
     cache_ok doc U (fold_left (fun s c => enter doc l c s) cs st)).
Proof.
  induction 1 as [|c cs Hc _ IH]; intros l st.
  - exists []. split; [apply frame_refl|]. by intros.
  - destruct (Hc l st) as (a1 & Hf1 & Hc1).
    destruct (IH l (enter doc l c st)) as (a2 & Hf2 & Hc2).
    exists (a1 ++ a2). split; [by eapply frame_trans|].
    intros HU Hwf Hb Hok. apply Forall_cons in HU as [Uc Ucs].
    destruct (Hc1 Uc Hwf Hb Hok) as [-> Hok1].
    destruct Hc2 as [-> Hok2]; eauto using frame_store_wf, frame_building.
Qed.

Lemma getScope_ok t :
  Forall (enter_ok doc U) (children t) ->
  forall st l st', getScope doc t st = (l, st') ->
    (forall l0, frame l0 [] st st') /\
    cache st' !! key t = Some l /\
    (U t -> store_wf st -> cache_ok doc U st ->
     arrays st' !! l = Some (scope_candidates doc t) /\ cache_ok doc U st').
Proof.
  intros IH st l st' Hg.
  destruct (cache st !! key t) as [cached|] eqn:Hc.
  - rewrite (getScope_hit _ _ _ _ Hc) in Hg. simplify_eq.
    split; [intros; apply frame_refl|]. split; [done|].
    intros Ut _ Hok. split; [by apply Hok|done].
  - rewrite (getScope_miss _ _ _ Hc) in Hg. simplify_eq.
    destruct (walk_children_ok _ IH (length (arrays st)) (snd (alloc st)))
      as (added & Hf & Hcond).
    fold (iterate_children (enter doc (length (arrays st))) t (snd (alloc st)))
      in Hf, Hcond.
    split; [intros l0; by eapply frame_miss|].
    split; [cbn [cache_set cache]; by rewrite lookup_insert_eq|].
    intros Ut Hwf Hok.
    destruct Hcond as [-> Hok2];
      auto using store_wf_alloc, building_alloc, cache_ok_alloc.
    { apply Forall_forall. eauto. }
    assert (Ha : arrays (iterate_children (enter doc (length (arrays st))) t
                           (snd (alloc st))) !! length (arrays st)
                 = Some (scope_candidates doc t)).
    { destruct Hf as (_ & _ & Hl & _).
      apply (Hl []). cbn [alloc snd arrays]. by apply list_lookup_middle. }
    split; [done|]. by apply cache_ok_set.
Qed.

Lemma enter_sound t : enter_ok doc U t.
Proof.
  induction t as [k n f e cs IH] using Tree_ind.
  intros l st. rewrite enter_unfold, contribution_unfold. cbn zeta.
  set (t := Node k n f e cs). change (name t) with n.
  pose proof (walk_children_ok cs IH l st) as Hwalk.
  fold (iterate_children (enter doc l) t st) in Hwalk.
  change (flat_map (contribution doc) cs) with (scope_candidates doc t) in Hwalk.
  assert (HUcs : U t -> Forall U cs).
  { intros Ut. apply Forall_forall. intros c Hc. by apply (U_children t). }
  destruct (String.eqb_spec n "") as [->|Hnamed]; cbn [negb].
  - (* anonymous *)
    change (ScopeNodes_has "") with false. cbn [String.eqb].
    destruct (to t - from t >? 8192)%Z.
    + destruct (getScope doc t st) as [inner st1] eqn:Hg.
      apply (getScope_ok t IH) in Hg as (Hf & Hk & Hcond).
      exists ([] ++ read inner st1).
      split; [eapply frame_trans; [apply Hf|apply frame_push_all]|].
      intros Ut Hwf Hb Hok. destruct (Hcond Ut Hwf Hok) as [Ha Hok1].
      split; [unfold read; by rewrite Ha|].
      apply cache_ok_push_all; [|done].
      by apply (frame_building _ _ _ _ (Hf l)).
    + destruct Hwalk as (added & Hf & Hcond). exists added. split; [done|].
      intros Ut ???. by apply Hcond; auto.
  - destruct (gatherCompletions_cases n) as [[-> ->]|[[-> ->]|(H1 & H2 & ->)]].
    + rewrite defID_def. cbn [orb String.eqb Ascii.eqb Bool.eqb].
      exists (name_candidate doc "function" t).
      split; [apply frame_push_all|].
      intros Ut Hwf [_ Hnc] Hok. split; [done|]. by apply cache_ok_push_all.
    + rewrite defID_def. cbn [orb String.eqb Ascii.eqb Bool.eqb].
      exists (name_candidate doc "class" t).
      split; [apply frame_push_all|].
      intros Ut Hwf [_ Hnc] Hok. split; [done|]. by apply cache_ok_push_all.
    + destruct (String.eqb_spec n "FunctionDefinition"); [done|].
      destruct (String.eqb_spec n "ClassDefinition"); [done|].
      destruct (ScopeNodes_has n).
      * exists []. split; [apply frame_refl|]. by intros.
      * destruct Hwalk as (added & Hf & Hcond). exists added. split; [done|].
        intros Ut ???. by apply Hcond; auto.
Qed.

End Soundness.

(** ** Effects that hold for every store *)

Lemma enter_frame doc l t st : exists added, frame l added st (enter doc l t st).
Proof.
  destruct (enter_sound doc (fun _ => False)) with (t := t) (l := l) (st := st)
    as (added & Hf & _); try done.
  by exists added.
Qed.

Lemma getScope_frame doc t st l0 : frame l0 [] st (snd (getScope doc t st)).
Proof.
  destruct (getScope doc t st) as [l st'] eqn:Hg.
  eapply (getScope_ok doc (fun _ => False)) in Hg as (Hf & _); try done.
  apply Forall_forall. intros c _. by apply enter_sound.
Qed.

Lemma getScope_cached doc t st :
  cache (snd (getScope doc t st)) !! key t = Some (fst (getScope doc t st)).
Proof.
  destruct (getScope doc t st) as [l st'] eqn:Hg.
  eapply (getScope_ok doc (fun _ => False)) in Hg as (_ & Hk & _); try done.
  apply Forall_forall. intros c _. by apply enter_sound.
Qed.

Lemma ancestor_loop_frame doc chain options st l0 :
  frame l0 [] st (snd (ancestor_loop doc chain options st)).
Proof.
  revert options st.
  induction chain as [|p up IH]; intros options st; cbn [ancestor_loop].
  - apply frame_refl.
  - destruct (ScopeNodes_has (name p)); [|apply IH].
    pose proof (getScope_frame doc p st l0) as Hf.
    destruct (getScope doc p st) as [scope st1].
    change [] with (@nil Completion ++ []). eapply frame_trans; [apply Hf|apply IH].
Qed.

Lemma localCompletionSource_frame context st l0 :
  frame l0 [] st (snd (localCompletionSource context st)).
Proof.
  unfold localCompletionSource.
  destruct (_ >? _)%Z; [apply frame_refl|].
  destruct (_ && _); [apply frame_refl|].
  pose proof (ancestor_loop_frame (state_doc context)
                (node (resolveInner context) :: ancestors (resolveInner context))
                [] st l0) as Hf.
  by destruct (ancestor_loop _ _ _ _).
Qed.

(** ** The nodes of one tree *)

Lemma nodes_unfold t : nodes t = t :: flat_map nodes (children t).
Proof. by destruct t. Qed.

Lemma nodes_self t : t ∈ nodes t.
Proof. rewrite nodes_unfold. apply list_elem_of_here. Qed.

Lemma elem_of_flat_map {A B} (f : A -> list B) (l : list A) (y : B) :
  y ∈ flat_map f l <-> exists x, x ∈ l /\ y ∈ f x.
Proof.
  rewrite list_elem_of_In, in_flat_map.
  split; intros (x & Hx & Hy); exists x; by rewrite ?list_elem_of_In in *.
Qed.

Lemma nodes_trans root : forall t c, t ∈ nodes root -> c ∈ nodes t -> c ∈ nodes root.
Proof.
  induction root as [k n f e cs IH] using Tree_ind. intros t c Ht Hc.
  rewrite nodes_unfold in Ht. apply elem_of_cons in Ht as [->|Ht]; [done|].
  apply elem_of_flat_map in Ht as (c' & Hc' & Ht).
  rewrite nodes_unfold. apply list_elem_of_further, elem_of_flat_map.
  exists c'. split; [done|].
  rewrite Forall_forall in IH. by apply (IH c' Hc' t).
Qed.

Lemma nodes_children root t c : t ∈ nodes root -> c ∈ children t -> c ∈ nodes root.
Proof.
  intros Ht Hc. apply (nodes_trans root t); [done|].
  rewrite nodes_unfold. apply list_elem_of_further, elem_of_flat_map.
  exists c. split; [done|apply nodes_self].
Qed.

Lemma NoDup_map_inj {A B} (f : A -> B) (l : list A) x y :
  NoDup (map f l) -> x ∈ l -> y ∈ l -> f x = f y -> x = y.
Proof.
  induction l as [|a l IH]; cbn; intros Hnd Hx Hy Heq.
  - by apply elem_of_nil in Hx.
  - apply NoDup_cons in Hnd as [Hnotin Hnd].
    apply elem_of_cons in Hx as [->|Hx], Hy as [->|Hy]; auto.
    + destruct Hnotin. rewrite Heq. by apply (list_elem_of_fmap_2 f).
    + destruct Hnotin. rewrite <- Heq. by apply (list_elem_of_fmap_2 f).
Qed.

Lemma chain_in_nodes root up : forall t,
  chain_in root t up -> Forall (fun x => x ∈ nodes root) (t :: up).
Proof.
  induction up as [|p up IH]; cbn; intros t H.
  - subst. repeat constructor. apply nodes_self.
  - destruct H as [Ht Hp]. pose proof (IH p Hp) as Hall.
    constructor; [|done].
    apply Forall_cons in Hall as [Hpin _].
    apply (nodes_trans root p); [done|].
    rewrite nodes_unfold. by apply list_elem_of_further.
Qed.

Section OneTree.

Variable doc : jsstring.
Variable root : Tree.
Hypothesis Hkeys : unique_keys root.

Lemma in_tree_children t c : in_tree root t -> c ∈ children t -> in_tree root c.
Proof. apply nodes_children. Qed.

Lemma in_tree_key_inj t1 t2 : in_tree root t1 -> in_tree root t2 -> key t1 = key t2 -> t1 = t2.
Proof. by apply NoDup_map_inj. Qed.

Lemma getScope_sound t st :
  in_tree root t -> store_wf st -> cache_ok doc (in_tree root) st ->
  read (fst (getScope doc t st)) (snd (getScope doc t st)) = scope_candidates doc t /\
  store_wf (snd (getScope doc t st)) /\
  cache_ok doc (in_tree root) (snd (getScope doc t st)).
Proof.
  intros Ht Hwf Hok.
  pose proof (getScope_frame doc t st 0) as Hf.
  destruct (getScope doc t st) as [l st'] eqn:Hg.
  eapply (getScope_ok doc (in_tree root)) in Hg as (_ & _ & Hcond).
  - destruct (Hcond Ht Hwf Hok) as [Ha Hok']. cbn [fst snd] in *.
    unfold read. rewrite Ha.
    split; [done|]. split; [by eapply frame_store_wf|done].
  - apply in_tree_children.
  - apply in_tree_key_inj.
  - apply Forall_forall. intros c _.
    apply enter_sound; [apply in_tree_children|apply in_tree_key_inj].
Qed.

Lemma ancestor_loop_sound chain : forall options st,
  Forall (in_tree root) chain -> store_wf st -> cache_ok doc (in_tree root) st ->
  fst (ancestor_loop doc chain options st) =
    options ++ flat_map (scope_candidates doc)
                 (List.filter (fun t => ScopeNodes_has (name t)) chain) /\
  store_wf (snd (ancestor_loop doc chain options st)) /\
  cache_ok doc (in_tree root) (snd (ancestor_loop doc chain options st)).
Proof.
  induction chain as [|p up IH]; intros options st Hin Hwf Hok;
    cbn [ancestor_loop List.filter].
  - by rewrite app_nil_r.
  - apply Forall_cons in Hin as [Hp Hup].
    destruct (ScopeNodes_has (name p)); [|by apply IH].
    destruct (getScope_sound p st Hp Hwf Hok) as (Hr & Hwf1 & Hok1).
    destruct (getScope doc p st) as [scope st1]. cbn [fst snd] in *.
    destruct (IH (options ++ read scope st1) st1 Hup Hwf1 Hok1) as (-> & ? & ?).
    cbn [flat_map]. rewrite Hr in *. by rewrite <- (assoc_L (++)).
Qed.

End OneTree.

(** ** The completion source against the cache-free reading *)

Lemma indexOf_from_spec l s : forall i, (0 <= i)%Z ->
  (In s l -> (i <= indexOf_from i l s)%Z) /\
  (~ In s l -> indexOf_from i l s = (-1)%Z).
Proof.
  induction l as [|x l IH]; intros i Hi; cbn [indexOf_from In].
  - split; [done|auto].
  - destruct (String.eqb_spec x s) as [->|Hne].
    + split; [lia|]. intros H. destruct H. by left.
    + destruct (IH (i + 1)%Z) as [IH1 IH2]; [lia|]. split.
      * intros [?|Hin]; [done|]. apply IH1 in Hin. lia.
      * intros Hnot. apply IH2. tauto.
Qed.

Lemma excluded_iff s :
  (indexOf dontComplete s >? -1)%Z = true <-> In s dontComplete.
Proof.
  destruct (indexOf_from_spec dontComplete s 0) as [H1 H2]; [lia|].
  unfold indexOf. split.
  - intros Hgt. destruct (In_dec string_dec s dontComplete) as [|Hn]; [done|].
    rewrite (H2 Hn) in Hgt. done.
  - intros Hin. apply H1 in Hin. apply Z.gtb_lt. lia.
Qed.

Lemma localCompletionSource_sound root context st :
  unique_keys root -> resolved_in root (resolveInner context) ->
  store_wf st -> cache_ok (state_doc context) (in_tree root) st ->
  fst (localCompletionSource context st) = expected_result context /\
  store_wf (snd (localCompletionSource context st)) /\
  cache_ok (state_doc context) (in_tree root) (snd (localCompletionSource context st)).
Proof.
  intros Hkeys Hres Hwf Hok.
  unfold localCompletionSource, expected_result.
  destruct (_ >? _)%Z; [done|].
  destruct (_ && _); [done|].
  destruct (ancestor_loop_sound (state_doc context) root Hkeys
              (node (resolveInner context) :: ancestors (resolveInner context))
              [] st) as (Hopts & Hwf' & Hok'); [by apply chain_in_nodes|done..|].
  destruct (ancestor_loop _ _ _ _) as [opts st1]. cbn [fst snd] in *.
  by rewrite Hopts.
Qed.

Lemma cache_ok_empty doc U : cache_ok doc U empty_store.
Proof. intros t l _. cbn. by rewrite lookup_empty. Qed.

Lemma warm_consistent doc root st :
  unique_keys root -> warm doc root st ->
  store_wf st /\ cache_ok doc (in_tree root) st.
Proof.
  intros Hkeys. induction 1 as [|context st _ [Hwf Hok] <- Hres|t st _ [Hwf Hok] Ht].
  - split; [apply store_wf_empty|apply cache_ok_empty].
  - by destruct (localCompletionSource_sound root context st) as (_ & ? & ?).
  - by destruct (getScope_sound doc root Hkeys t st) as (_ & ? & ?).
Qed.

Lemma later_frame st1 st2 l : later st1 st2 -> frame l [] st1 st2.
Proof.
  induction 1 as [st|doc t st1 st2 _ IH|context st1 st2 _ IH].
  - apply frame_refl.
  - change [] with (@nil Completion ++ []).
    eapply frame_trans; [apply IH|apply getScope_frame].
  - change [] with (@nil Completion ++ []).
    eapply frame_trans; [apply IH|apply localCompletionSource_frame].
Qed.

(** The array a recursive call returns is never the one under
    construction, so the loop that copies it iterates over an array that
    does not change meanwhile, as [push_all] has it. *)
Lemma getScope_result_not_building doc a l st :
  building l st -> fst (getScope doc a st) <> l.
Proof.
  intros Hb Heq.
  pose proof (getScope_cached doc a st) as Hk.
  destruct (frame_building _ _ _ _ (getScope_frame doc a st l) Hb) as [_ Hnc].
  apply (Hnc (key a)). by rewrite Hk, Heq.
Qed.

(** ** Which cache entries a walk adds *)

Lemma nested_scopes_unfold t :
  nested_scopes t =
  if String.eqb (name t) "" then
    if (to t - from t >? 8192)%Z then [t]
    else flat_map nested_scopes (children t)
  else match gatherCompletions (name t) with
       | Some _ => []
       | None => if ScopeNodes_has (name t) then []
                 else flat_map nested_scopes (children t)
       end.
Proof. by destruct t. Qed.

Lemma walk_children_frame doc cs l st :
  exists added, frame l added st (fold_left (fun s c => enter doc l c s) cs st).
Proof.
  destruct (walk_children_ok doc (fun _ => False) cs) with (l := l) (st := st)
    as (added & Hf & _); [|by exists added].
  apply Forall_forall. intros c _. by apply enter_sound.
Qed.

Lemma submap_same_keys (m1 m2 : gmap nat nat) :
  m1 ⊆ m2 -> (forall k, is_Some (m2 !! k) -> is_Some (m1 !! k)) -> m2 = m1.
Proof.
  intros Hsub Hdom. apply map_eq. intros k.
  destruct (m2 !! k) as [v|] eqn:H2.
  - destruct (Hdom k) as [v' H1]; [by eexists|].
    rewrite H1. f_equal. pose proof (lookup_weaken _ _ _ _ H1 Hsub). congruence.
  - destruct (m1 !! k) as [v|] eqn:H1; [|done].
    pose proof (lookup_weaken _ _ _ _ H1 Hsub). congruence.
Qed.

Section CacheEffect.

Variable doc : jsstring.

Lemma children_cache_effect cs :
  Forall (cache_effect doc) cs ->
  forall l st,
    (forall a, a ∈ flat_map nested_scopes cs ->
       is_Some (cache (fold_left (fun s c => enter doc l c s) cs st) !! key a)) /\
    (forall k, is_Some (cache (fold_left (fun s c => enter doc l c s) cs st) !! k) ->
       is_Some (cache st !! k) \/
       exists a, a ∈ flat_map nodes cs /\ big_anonymous a = true /\ key a = k) /\
    (flat_map nested_scopes cs = [] ->
       cache (fold_left (fun s c => enter doc l c s) cs st) = cache st).
Proof.
  induction 1 as [|c cs Hc _ IH]; intros l st; cbn [fold_left flat_map].
  - repeat split; [by intros a ?%elem_of_nil|auto..].
  - destruct (Hc l st) as (Hc1 & Hc2 & Hc3).
    destruct (IH l (enter doc l c st)) as (IH1 & IH2 & IH3).
    destruct (walk_children_frame doc cs l (enter doc l c st))
      as (added & _ & _ & _ & Hsub & _).
    repeat split.
    + intros a [Ha|Ha]%elem_of_app; [|by apply IH1].
      eapply lookup_weaken_is_Some; [by apply Hc1|done].
    + intros k Hk. destruct (IH2 k Hk) as [Hk1|(a & Ha & Hbig & Hka)].
      * destruct (Hc2 k Hk1) as [?|(a & Ha & Hbig & Hka)]; [by left|right].
        exists a. rewrite elem_of_app. auto.
      * right. exists a. rewrite elem_of_app. auto.
    + intros [H1 H2]%app_eq_nil. by rewrite IH3, Hc3.
Qed.

Lemma getScope_cache_effect t :
  Forall (cache_effect doc) (children t) ->
  forall st,
    (forall k, is_Some (cache (snd (getScope doc t st)) !! k) ->
       is_Some (cache st !! k) \/ k = key t \/
       exists a, a ∈ flat_map nodes (children t) /\ big_anonymous a = true /\ key a = k) /\
    (cache st !! key t = None ->
     (forall a, a ∈ flat_map nested_scopes (children t) ->
        is_Some (cache (snd (getScope doc t st)) !! key a)) /\
     (flat_map nested_scopes (children t) = [] ->
        cache (snd (getScope doc t st)) = <[key t := length (arrays st)]> (cache st))).
Proof.
  intros IH st.
  destruct (cache st !! key t) as [cached|] eqn:Hc.
  - rewrite (getScope_hit _ _ _ _ Hc). split; [auto|done].
  - rewrite (getScope_miss _ _ _ Hc). unfold iterate_children.
    cbn [snd cache_set cache].
    destruct (children_cache_effect _ IH (length (arrays st)) (snd (alloc st)))
      as (H1 & H2 & H3).
    split; [|split].
    + intros k Hk. destruct (decide (key t = k)) as [|Hne]; [auto|].
      rewrite lookup_insert_ne in Hk by done.
      destruct (H2 k Hk) as [?|?]; auto.
    + intros a Ha. destruct (decide (key t = key a)) as [->|Hne].
      * rewrite lookup_insert_eq. by eexists.
      * rewrite lookup_insert_ne by done. by apply H1.
    + intros Hnone. by rewrite (H3 Hnone).
Qed.

Lemma enter_cache_effect t : cache_effect doc t.
Proof.
  induction t as [k n f e cs IH] using Tree_ind.
  intros l st. rewrite enter_unfold, nested_scopes_unfold. cbn zeta.
  set (t := Node k n f e cs). change (name t) with n.
  pose proof (children_cache_effect cs IH l st) as Hwalk.
  fold (iterate_children (enter doc l) t st) in Hwalk.
  assert (Hbelow :
    (forall a, a ∈ flat_map nested_scopes cs ->
       is_Some (cache (iterate_children (enter doc l) t st) !! key a)) /\
    (forall k0, is_Some (cache (iterate_children (enter doc l) t st) !! k0) ->
       is_Some (cache st !! k0) \/
       exists a, a ∈ nodes t /\ big_anonymous a = true /\ key a = k0) /\
    (flat_map nested_scopes cs = [] ->
       cache (iterate_children (enter doc l) t st) = cache st)).
  { destruct Hwalk as (H1 & H2 & H3). repeat split; [done| |done].
    intros k0 Hk0. destruct (H2 k0 Hk0) as [?|(a & Ha & ?)]; [by left|right].
    exists a. split; [|done]. rewrite nodes_unfold. by apply list_elem_of_further. }
  destruct (String.eqb_spec n "") as [->|Hnamed]; cbn [negb].
  - destruct (to t - from t >? 8192)%Z eqn:Hbig; [|done].
    pose proof (getScope_cached doc t st) as Hk.
    destruct (getScope_cache_effect t IH st) as [Hdom _].
    destruct (getScope doc t st) as [inner st1]. cbn [fst snd] in *.
    rewrite cache_push_all. repeat split.
    + intros a ->%list_elem_of_singleton. by eexists.
    + intros k0 Hk0. destruct (Hdom k0 Hk0) as [?|[->|(a & Ha & ?)]]; [by left|..].
      * right. exists t. split; [apply nodes_self|]. split; [|done].
        unfold big_anonymous. by rewrite Hbig.
      * right. exists a. split; [|done].
        rewrite nodes_unfold. by apply list_elem_of_further.
    + done.
  - destruct (gatherCompletions_cases n) as [[-> ->]|[[-> ->]|(H1 & H2 & ->)]].
    + rewrite defID_def. cbn [orb]. rewrite cache_push_all.
      repeat split; [by intros a ?%elem_of_nil|auto].
    + rewrite defID_def. cbn [orb]. rewrite cache_push_all.
      repeat split; [by intros a ?%elem_of_nil|auto].
    + destruct (ScopeNodes_has n); [|done].
      repeat split; [by intros a ?%elem_of_nil|auto].
Qed.

End CacheEffect.

Lemma nested_scopes_big t : forall a, a ∈ nested_scopes t -> big_anonymous a = true.
Proof.
  induction t as [k n f e cs IH] using Tree_ind. intros a.
  rewrite nested_scopes_unfold.
  set (t := Node k n f e cs). change (name t) with n. change (children t) with cs.
  assert (Hbelow : a ∈ flat_map nested_scopes cs -> big_anonymous a = true).
  { intros (c & Hc & Ha)%elem_of_flat_map.
    rewrite Forall_forall in IH. by apply (IH c). }
  destruct (String.eqb_spec n "") as [->|_].
  - destruct (to t - from t >? 8192)%Z eqn:Hbig; [|done].
    intros ->%list_elem_of_singleton. unfold big_anonymous. by rewrite Hbig.
  - destruct (gatherCompletions n); [by intros ?%elem_of_nil|].
    destruct (ScopeNodes_has n); [by intros ?%elem_of_nil|done].
Qed.

(** ** The worked examples, evaluated *)

Example request_at_bar :
  fst (localCompletionSource (Example.request false) empty_store) =
  Some (mkResult [Example.bar_candidate; Example.foo_candidate] 25 Identifier_test).
Proof. vm_compute. reflexivity. Qed.

Example request_at_brace_not_explicit :
  fst (localCompletionSource (mkContext Example.text 18 false Example.at_brace)
         empty_store) = None.
Proof. reflexivity. Qed.

Example wide_script_scope :
  read (fst (getScope Wide.text Wide.script empty_store))
       (snd (getScope Wide.text Wide.script empty_store)) =
    [mkCompletion (js "foo") "function"; mkCompletion (js "Bar") "class"] /\
  cache (snd (getScope Wide.text Wide.script empty_store)) !! key Wide.large = Some 1 /\
  cache (snd (getScope Wide.text Wide.script empty_store)) !! key Wide.small = None /\
  read 1 (snd (getScope Wide.text Wide.script empty_store)) =
    [mkCompletion (js "foo") "function"].
Proof. vm_compute. repeat split. Qed.

Lemma Example_unique_keys : unique_keys Example.script.
Proof. apply (bool_decide_unpack _). vm_compute. exact I. Qed.

Lemma Example_at_bar : resolved_in Example.script Example.at_bar.
Proof. repeat split; solve_in_list. Qed.

Lemma Example_at_brace : resolved_in Example.script Example.at_brace.
Proof. repeat split; solve_in_list. Qed.

(** * The claims *)

(** C1, as stated, fails: the loop starts at the resolved node, so when
    that node is itself a scope node its own candidates come first.  With
    the body of [foo] as the resolved node the options are [Bar] and
    [foo], while the lists [getScope] gives for its two scope ancestors,
    the function and the script, make up [foo] alone. *)
Lemma resolved_scope_node_counterexample :
  List.filter (fun t => ScopeNodes_has (name t)) (ancestors Example.at_body) =
    [Example.foo; Example.script] /\
  flat_map (fun s => read (fst (getScope Example.text s empty_store))
                          (snd (getScope Example.text s empty_store)))
           (List.filter (fun t => ScopeNodes_has (name t))
                        (ancestors Example.at_body)) =
    [Example.foo_candidate] /\
  fst (localCompletionSource (mkContext Example.text 18 true Example.at_body)
         empty_store) =
    Some (mkResult [Example.bar_candidate; Example.foo_candidate] 18 Identifier_test) /\
  [Example.bar_candidate; Example.foo_candidate] <> [Example.foo_candidate].
Proof. repeat split. discriminate. Qed.

(** C1, amended: the options of a non-null result are the concatenation,
    innermost first, of the candidate lists [getScope] gives for the scope
    nodes on the chain that starts at the resolved node itself and leads
    through its ancestors (so these are its scope ancestors, preceded by
    the resolved node when that is a scope node, and exactly its scope
    ancestors when it is not): every candidate of each of these scopes is
    among the options, and those of an inner scope come before those of
    any scope further out. *)
Theorem options_concatenate_scopes root context st r st' :
  unique_keys root -> resolved_in root (resolveInner context) ->
  store_wf st -> cache_ok (state_doc context) (in_tree root) st ->
  localCompletionSource context st = (Some r, st') ->
  let doc := state_doc context in
  let scopes := scope_chain (resolveInner context) in
  options r = flat_map (scope_candidates doc) scopes /\
  (ScopeNodes_has (name (node (resolveInner context))) = false ->
   scopes = List.filter (fun t => ScopeNodes_has (name t))
              (ancestors (resolveInner context))) /\
  (forall s, s ∈ scopes ->
     read (fst (getScope doc s st')) (snd (getScope doc s st')) = scope_candidates doc s) /\
  (forall s c, s ∈ scopes -> c ∈ scope_candidates doc s -> c ∈ options r) /\
  (forall inner s1 mid s2 outer,
     scopes = inner ++ s1 :: mid ++ s2 :: outer ->
     exists before between after,
       options r = before ++ scope_candidates doc s1 ++ between ++
                   scope_candidates doc s2 ++ after).
Proof.
  intros Hkeys Hres Hwf Hok Hrun doc scopes.
  destruct (localCompletionSource_sound root context st) as (Hr & Hwf' & Hok');
    [done..|].
  rewrite Hrun in Hr, Hwf', Hok'. cbn [fst snd] in *.
  assert (Hopts : options r = flat_map (scope_candidates doc) scopes).
  { unfold expected_result in Hr.
    destruct (_ >? _)%Z; [done|]. destruct (_ && _); [done|]. by simplify_eq. }
  split; [done|]. split; [|split; [|split]].
  - intros Hleaf. subst scopes. unfold scope_chain. cbn [List.filter].
    by rewrite Hleaf.
  - intros s Hs. apply (getScope_sound doc root Hkeys); [|done..].
    apply list_elem_of_In, filter_In in Hs as [Hs _].
    apply list_elem_of_In in Hs.
    pose proof (chain_in_nodes root _ _ Hres) as Hall.
    rewrite Forall_forall in Hall. by apply Hall.
  - intros s c Hs Hc. rewrite Hopts. apply elem_of_flat_map. eauto.
  - intros inner s1 mid s2 outer Hsplit. rewrite Hopts, Hsplit.
    exists (flat_map (scope_candidates doc) inner),
           (flat_map (scope_candidates doc) mid),
           (flat_map (scope_candidates doc) outer).
    rewrite flat_map_app. cbn [flat_map]. rewrite flat_map_app. by cbn [flat_map].
Qed.

Lemma options_concatenate_scopes_witness :
  options (mkResult [Example.bar_candidate; Example.foo_candidate] 25 Identifier_test) =
  flat_map (scope_candidates Example.text) (scope_chain Example.at_bar).
Proof.
  refine (proj1 (options_concatenate_scopes Example.script (Example.request false)
                   empty_store
                   (mkResult [Example.bar_candidate; Example.foo_candidate] 25
                      Identifier_test)
                   (snd (localCompletionSource (Example.request false) empty_store))
                   Example_unique_keys Example_at_bar store_wf_empty
                   (cache_ok_empty _ _) _)).
  vm_compute. reflexivity.
Defined.

(** C2, as stated, fails: a FunctionDefinition node without a direct
    VariableName child gives the enclosing scope no candidate at all. *)
Lemma nameless_definition_counterexample :
  name Nameless.definition = "FunctionDefinition"%string /\
  In Nameless.definition (children Nameless.script) /\
  read (fst (getScope Nameless.text Nameless.script empty_store))
       (snd (getScope Nameless.text Nameless.script empty_store)) = [].
Proof. repeat split. by left. Qed.

(** C2, amended: a FunctionDefinition (ClassDefinition) node that has a
    direct VariableName child makes the walk push exactly one candidate,
    labelled with the text of the first such child and tagged "function"
    ("class"), and nothing for its parameters or its body: collecting a
    scope that has the node as a child yields what the earlier children
    contribute, then that candidate, then what the later children
    contribute.  Without a VariableName child the node contributes
    nothing. *)
Theorem definition_contributes_its_name doc l t tag st :
  (name t = "FunctionDefinition"%string /\ tag = "function"%string) \/
  (name t = "ClassDefinition"%string /\ tag = "class"%string) ->
  (forall id, getChild "VariableName" t = Some id ->
     let c := mkCompletion (sliceString doc (from id) (to id)) tag in
     enter doc l t st = push l c st /\
     contribution doc t = [c] /\
     forall scope before after,
       children scope = before ++ t :: after -> unique_keys scope ->
       read (fst (getScope doc scope empty_store))
            (snd (getScope doc scope empty_store)) =
       flat_map (contribution doc) before ++ [c] ++ flat_map (contribution doc) after) /\
  (getChild "VariableName" t = None ->
     enter doc l t st = st /\ contribution doc t = []).
Proof.
  intros Hkind.
  assert (Henter : enter doc l t st = push_all l (name_candidate doc tag t) st).
  { rewrite enter_unfold.
    destruct Hkind as [[Hn ->]|[Hn ->]]; rewrite Hn.
    - change (gatherCompletions "FunctionDefinition") with (Some (defID "function")).
      cbn [String.eqb Ascii.eqb Bool.eqb negb]. by rewrite defID_def.
    - change (gatherCompletions "ClassDefinition") with (Some (defID "class")).
      cbn [String.eqb Ascii.eqb Bool.eqb negb]. by rewrite defID_def. }
  assert (Hcontrib : contribution doc t = name_candidate doc tag t).
  { rewrite contribution_unfold. by destruct Hkind as [[-> ->]|[-> ->]]. }
  rewrite Henter, Hcontrib. split.
  - intros id Hid c.
    assert (Hc : name_candidate doc tag t = [c]).
    { unfold name_candidate. by rewrite Hid. }
    rewrite Hc. repeat split. intros scope before after Hch Hkeys.
    destruct (getScope_sound doc scope Hkeys scope empty_store) as (-> & _).
    + apply nodes_self.
    + apply store_wf_empty.
    + apply cache_ok_empty.
    + unfold scope_candidates. rewrite Hch, flat_map_app. cbn [flat_map].
      by rewrite Hcontrib, Hc.
  - unfold name_candidate. by intros ->.
Qed.

Lemma definition_contributes_its_name_witness :
  enter Example.text 0 Example.foo (snd (alloc empty_store)) =
    push 0 Example.foo_candidate (snd (alloc empty_store)) /\
  read (fst (getScope Example.text Example.script empty_store))
       (snd (getScope Example.text Example.script empty_store)) =
    [Example.foo_candidate] /\
  enter Example.text 0 Example.bar (snd (alloc empty_store)) =
    push 0 Example.bar_candidate (snd (alloc empty_store)).
Proof.
  destruct (definition_contributes_its_name Example.text 0 Example.foo "function"
              (snd (alloc empty_store)) (or_introl (conj eq_refl eq_refl)))
    as [Hfoo _].
  destruct (Hfoo (Node 4 "VariableName" 9 12 []) eq_refl) as (Henter & _ & Hscope).
  destruct (definition_contributes_its_name Example.text 0 Example.bar "class"
              (snd (alloc empty_store)) (or_intror (conj eq_refl eq_refl)))
    as [Hbar _].
  destruct (Hbar Example.bar_name eq_refl) as (Hbar_enter & _).
  split; [exact Henter|]. split; [|exact Hbar_enter].
  exact (Hscope Example.script [] [] eq_refl Example_unique_keys).
Defined.

(** C3: the first call of [getScope] on a node leaves the array it
    returns cached under the identity of the node: an allocated array, a
    fresh one when the call missed the cache, holding the candidates of
    the scope when the cache was consistent.  A second call on the same
    node, after any number of calls into the module in between, returns
    that very array (the same location, not an equal copy), holding what
    it held then, and leaves the store as it finds it: nothing is walked
    again. *)
Theorem getScope_reuses_cached_list doc t st st2 :
  store_wf st ->
  later (snd (getScope doc t st)) st2 ->
  cache (snd (getScope doc t st)) !! key t = Some (fst (getScope doc t st)) /\
  fst (getScope doc t st) < length (arrays (snd (getScope doc t st))) /\
  (cache st !! key t = None -> fst (getScope doc t st) = length (arrays st)) /\
  (forall root,
     unique_keys root -> in_tree root t -> cache_ok doc (in_tree root) st ->
     read (fst (getScope doc t st)) (snd (getScope doc t st)) =
       scope_candidates doc t) /\
  cache st2 !! key t = Some (fst (getScope doc t st)) /\
  getScope doc t st2 = (fst (getScope doc t st), st2) /\
  read (fst (getScope doc t st)) st2 =
    read (fst (getScope doc t st)) (snd (getScope doc t st)).
Proof.
  intros Hwf Hlater.
  pose proof (getScope_cached doc t st) as Hk.
  pose proof (getScope_frame doc t st 0) as Hf1.
  pose proof (later_frame _ _ (fst (getScope doc t st)) Hlater) as Hf2.
  pose proof (frame_store_wf _ _ _ _ Hf1 Hwf) as Hwf1.
  assert (Hk2 : cache st2 !! key t = Some (fst (getScope doc t st))).
  { destruct Hf2 as (_ & _ & _ & Hsub & _). by eapply lookup_weaken. }
  split; [done|]. split; [by eapply Hwf1|]. split; [|split; [|split; [done|split]]].
  - intros Hmiss. by rewrite (getScope_miss _ _ _ Hmiss).
  - intros root Hkeys Ht Hok.
    by destruct (getScope_sound doc root Hkeys t st Ht Hwf Hok) as (? & _).
  - by apply getScope_hit.
  - rewrite (frame_read _ _ _ _ Hf2), app_nil_r; [done|]. by eapply Hwf1.
Qed.

Lemma getScope_reuses_cached_list_witness :
  cache (snd (getScope Example.text Example.script empty_store))
    !! key Example.script =
    Some (fst (getScope Example.text Example.script empty_store)) /\
  read (fst (getScope Example.text Example.script empty_store))
       (snd (getScope Example.text Example.script empty_store)) =
    scope_candidates Example.text Example.script /\
  getScope Example.text Example.script
    (snd (getScope Example.text Example.body
            (snd (getScope Example.text Example.script empty_store)))) =
  (fst (getScope Example.text Example.script empty_store),
   snd (getScope Example.text Example.body
          (snd (getScope Example.text Example.script empty_store)))).
Proof.
  destruct (getScope_reuses_cached_list Example.text Example.script empty_store
              (snd (getScope Example.text Example.body
                      (snd (getScope Example.text Example.script empty_store))))
              store_wf_empty)
    as (Hcached & _ & _ & Hlist & _ & Hagain & _).
  - apply later_getScope, later_now.
  - split; [exact Hcached|]. split; [|exact Hagain].
    apply (Hlist Example.script Example_unique_keys (nodes_self _)
             (cache_ok_empty _ _)).
Defined.

(** C4: when the resolved innermost node is a String, FormatString,
    Comment or PropertyName node, [localCompletionSource] answers null and
    leaves the store alone, whatever the explicit flag is: the exclusion
    test comes before the test of [context.explicit]. *)
Theorem excluded_context_no_completions doc pos explicit inner st :
  In (name (node inner)) dontComplete ->
  localCompletionSource (mkContext doc pos explicit inner) st = (None, st).
Proof.
  intros Hin. apply excluded_iff in Hin.
  unfold localCompletionSource. cbn [resolveInner]. by rewrite Hin.
Qed.

Lemma excluded_context_no_completions_witness :
  In (name (node (mkSyntaxNode (Node 3 "String" 5 17 []) [Node 1 "Script" 0 18 []])))
     dontComplete /\
  localCompletionSource
    (mkContext (js "echo 'hello $na';") 16 true
       (mkSyntaxNode (Node 3 "String" 5 17 []) [Node 1 "Script" 0 18 []]))
    empty_store = (None, empty_store).
Proof.
  split; [cbn; auto|].
  apply excluded_context_no_completions. cbn; auto.
Defined.

(** C5: where the token under the cursor is no partial identifier (its
    kind is not VariableName, and its text is too long or fails the
    identifier pattern) and its kind is not excluded, a request that is not
    explicit answers null and leaves the store alone, and the explicit
    request answers a result whose options are the candidates of every
    scope on the chain of the resolved node, innermost first, to be
    inserted at the cursor. *)
Theorem not_identifier_needs_explicit root doc cursor inner st :
  ~ In (name (node inner)) dontComplete ->
  name (node inner) <> "VariableName"%string ->
  (~ (to (node inner) - from (node inner) < 20)%Z \/
   Identifier_test (sliceString doc (from (node inner)) (to (node inner))) = false) ->
  unique_keys root -> resolved_in root inner ->
  store_wf st -> cache_ok doc (in_tree root) st ->
  localCompletionSource (mkContext doc cursor false inner) st = (None, st) /\
  exists r,
    fst (localCompletionSource (mkContext doc cursor true inner) st) = Some r /\
    options r = flat_map (scope_candidates doc) (scope_chain inner) /\
    result_from r = cursor /\
    validFor r = Identifier_test.
Proof.
  intros Hex Hkind Htext Hkeys Hres Hwf Hok.
  assert (Hexb : (indexOf dontComplete (name (node inner)) >? -1)%Z = false).
  { apply not_true_is_false. by rewrite excluded_iff. }
  assert (Hword : forall e, isWord_of (mkContext doc cursor e inner) = false).
  { intros e. unfold isWord_of. cbn [resolveInner state_doc].
    apply orb_false_intro; [by apply String.eqb_neq|].
    apply andb_false_iff. destruct Htext as [Hlen|Hpat]; [left|by right].
    apply Z.ltb_ge. lia. }
  split.
  - unfold localCompletionSource. cbn [resolveInner explicit].
    by rewrite Hexb, Hword.
  - destruct (localCompletionSource_sound root (mkContext doc cursor true inner) st)
      as (Hr & _); [done..|].
    rewrite Hr. unfold expected_result. cbn [resolveInner explicit state_doc pos].
    rewrite Hexb, Hword. cbn [negb andb]. eauto.
Qed.

Lemma not_identifier_needs_explicit_witness :
  localCompletionSource (mkContext Example.text 18 false Example.at_brace) empty_store
    = (None, empty_store) /\
  exists r,
    fst (localCompletionSource (mkContext Example.text 18 true Example.at_brace)
           empty_store) = Some r /\
    options r = flat_map (scope_candidates Example.text) (scope_chain Example.at_brace) /\
    result_from r = 18%Z /\
    validFor r = Identifier_test.
Proof.
  apply (not_identifier_needs_explicit Example.script).
  - cbn. intuition discriminate.
  - discriminate.
  - right. vm_compute. reflexivity.
  - apply Example_unique_keys.
  - apply Example_at_brace.
  - apply store_wf_empty.
  - apply cache_ok_empty.
Defined.

(** C6, as the code has it: the first character class of [Identifier]
    contains [\w], and [\w] contains the digits, so the pattern accepts a
    string that starts with a digit. *)
Theorem Identifier_accepts_leading_digit :
  Identifier_test (js "1abc") = true /\
  Identifier_first 49%N = true /\
  isWord_of (mkContext (js "$x = 123;") 8 false
               (mkSyntaxNode (Node 4 "Number" 5 8 []) [Node 1 "Script" 0 9 []]))
    = true.
Proof. repeat split. Qed.

(** What [Identifier] does guarantee: a string it accepts is not empty and
    consists of word characters and code units from [\xa1] on. *)
Lemma Identifier_test_chars s :
  Identifier_test s = true ->
  s <> [] /\ Forall (fun c => class_w c = true \/ in_range 161 65535 c = true) s.
Proof.
  destruct s as [|c rest]; [done|]. cbn [Identifier_test].
  intros [Hc Hrest]%andb_prop. split; [done|]. constructor.
  - unfold Identifier_first in Hc. by apply orb_prop in Hc.
  - rewrite forallb_forall in Hrest. apply Forall_forall. intros x Hx%list_elem_of_In.
    apply Hrest in Hx. unfold Identifier_rest, class_d in Hx.
    apply orb_prop in Hx as [[Hw|Hd]%orb_prop|Hr]; auto.
    left. unfold class_w. rewrite Hd. by rewrite !orb_true_r.
Qed.

(** C7: when the walk of [getScope] visits, below the root, an anonymous
    node of more than 8192 bytes, it calls [getScope] on that node, which
    leaves the node cached under its own identity, and appends the
    elements of the returned array, in order, to the array under
    construction; the children of the node are looked at by that call
    only, and not at all when the node was cached already.  An anonymous
    node of at most 8192 bytes is descended into like any other. *)
Theorem large_anonymous_node_recurses doc l a st :
  name a = ""%string -> store_wf st -> building l st ->
  ((to a - from a > 8192)%Z ->
     let inner := fst (getScope doc a st) in
     let st1 := snd (getScope doc a st) in
     enter doc l a st = push_all l (read inner st1) st1 /\
     cache (enter doc l a st) !! key a = Some inner /\
     read l (enter doc l a st) = read l st ++ read inner (enter doc l a st) /\
     (forall cached, cache st !! key a = Some cached ->
        enter doc l a st = push_all l (read cached st) st)) /\
  ((to a - from a <= 8192)%Z ->
     enter doc l a st = iterate_children (enter doc l) a st).
Proof.
  intros Hname Hwf Hb. split.
  - intros Hbig inner st1. apply Z.gtb_gt in Hbig.
    pose proof (getScope_cached doc a st) as Hk.
    pose proof (getScope_frame doc a st l) as Hf.
    fold inner st1 in Hk, Hf.
    assert (Henter : enter doc l a st = push_all l (read inner st1) st1).
    { rewrite enter_unfold, Hname. cbn [String.eqb negb]. rewrite Hbig.
      subst inner st1. by destruct (getScope doc a st). }
    rewrite Henter.
    pose proof (frame_store_wf _ _ _ _ Hf Hwf) as Hwf1.
    pose proof (frame_building _ _ _ _ Hf Hb) as [Hl1 Hnc1].
    pose proof (frame_push_all l (read inner st1) st1) as Hp.
    split; [done|]. split; [by rewrite cache_push_all|]. split.
    + rewrite (frame_read _ _ _ _ Hp Hl1).
      rewrite (frame_read _ _ _ _ Hf (proj1 Hb)), app_nil_r. f_equal.
      destruct Hp as (_ & Hoth & _). unfold read at 2. rewrite Hoth; [done|..].
      * by eapply Hwf1.
      * intros ->. by apply (Hnc1 (key a)).
    + intros cached Hc. subst inner st1. by rewrite (getScope_hit _ _ _ _ Hc).
  - intros Hsmall. rewrite enter_unfold, Hname. cbn [String.eqb negb].
    destruct (Z.gtb_spec (to a - from a) 8192); [lia|done].
Qed.

Lemma large_anonymous_node_recurses_witness :
  enter Wide.text 0 Wide.large (snd (alloc empty_store)) =
    push_all 0
      (read (fst (getScope Wide.text Wide.large (snd (alloc empty_store))))
            (snd (getScope Wide.text Wide.large (snd (alloc empty_store)))))
      (snd (getScope Wide.text Wide.large (snd (alloc empty_store)))) /\
  enter Wide.text 0 Wide.small (snd (alloc empty_store)) =
    iterate_children (enter Wide.text 0) Wide.small (snd (alloc empty_store)).
Proof.
  split.
  - refine (proj1 (proj1 (large_anonymous_node_recurses Wide.text 0 Wide.large
                            (snd (alloc empty_store)) eq_refl
                            (store_wf_alloc _ store_wf_empty)
                            (building_alloc _ store_wf_empty)) _)).
    vm_compute. reflexivity.
  - refine (proj2 (large_anonymous_node_recurses Wide.text 0 Wide.small
                     (snd (alloc empty_store)) eq_refl
                     (store_wf_alloc _ store_wf_empty)
                     (building_alloc _ store_wf_empty)) _).
    vm_compute. discriminate.
Defined.

(** C8: a named node whose kind is neither FunctionDefinition nor
    ClassDefinition nor any scope kind has no extractor, also when its kind
    is spelled like a property of [Object.prototype]; the callback pushes
    nothing and writes nothing for it and the walk goes on into its
    children: under a consistent cache the visit appends to the array
    under construction exactly what the children of the node contribute,
    in their order, and leaves every other array alone and the cache
    consistent.  The visit always ends, in a store that extends the one it
    started from. *)
Theorem unknown_kind_is_descended doc l t st :
  name t <> ""%string ->
  name t <> "FunctionDefinition"%string -> name t <> "ClassDefinition"%string ->
  ScopeNodes_has (name t) = false ->
  gatherCompletions (name t) = None /\
  enter doc l t st = iterate_children (enter doc l) t st /\
  contribution doc t = scope_candidates doc t /\
  (exists added, frame l added st (enter doc l t st)) /\
  (forall root,
     unique_keys root -> in_tree root t ->
     store_wf st -> building l st -> cache_ok doc (in_tree root) st ->
     read l (enter doc l t st) =
       read l st ++ flat_map (contribution doc) (children t) /\
     (forall i, i < length (arrays st) -> i <> l ->
        arrays (enter doc l t st) !! i = arrays st !! i) /\
     cache_ok doc (in_tree root) (enter doc l t st)) /\
  gatherCompletions "toString" = None /\
  gatherCompletions "constructor" = None /\
  gatherCompletions "__proto__" = None.
Proof.
  intros Hnamed Hfun Hclass Hscope.
  assert (Hnone : gatherCompletions (name t) = None).
  { by destruct (gatherCompletions_cases (name t)) as [[? _]|[[? _]|(_ & _ & ?)]]. }
  assert (Hcontrib : contribution doc t = scope_candidates doc t).
  { rewrite contribution_unfold, Hscope.
    destruct (String.eqb_spec (name t) "FunctionDefinition"); [done|].
    by destruct (String.eqb_spec (name t) "ClassDefinition"). }
  split; [done|].
  split; [|split; [done|split; [apply enter_frame|split; [|done]]]].
  - rewrite enter_unfold, Hnone, Hscope. cbn zeta.
    by destruct (String.eqb_spec (name t) "").
  - intros root Hkeys Ht Hwf Hb Hok.
    destruct (enter_sound doc (in_tree root) (in_tree_children root)
                (in_tree_key_inj root Hkeys) t l st) as (added & Hf & Hcond).
    destruct (Hcond Ht Hwf Hb Hok) as [-> Hok'].
    split; [|split; [|done]].
    + rewrite (frame_read _ _ _ _ Hf (proj1 Hb)). by rewrite Hcontrib.
    + by destruct Hf as (_ & Hoth & _).
Qed.

Lemma unknown_kind_root_unique_keys :
  unique_keys (Node 30 "toString" 0 33 [Example.foo]).
Proof. apply (bool_decide_unpack _). vm_compute. exact I. Qed.

Lemma unknown_kind_is_descended_witness :
  enter Example.text 0 (Node 30 "toString" 0 33 [Example.foo]) (snd (alloc empty_store)) =
    iterate_children (enter Example.text 0) (Node 30 "toString" 0 33 [Example.foo])
      (snd (alloc empty_store)) /\
  read 0 (enter Example.text 0 (Node 30 "toString" 0 33 [Example.foo])
            (snd (alloc empty_store))) =
    read 0 (snd (alloc empty_store)) ++
    flat_map (contribution Example.text) [Example.foo].
Proof.
  destruct (unknown_kind_is_descended Example.text 0
              (Node 30 "toString" 0 33 [Example.foo])
              (snd (alloc empty_store)))
    as (_ & Henter & _ & _ & Hwalk & _); try (discriminate || reflexivity).
  split; [exact Henter|].
  apply (Hwalk (Node 30 "toString" 0 33 [Example.foo])
           unknown_kind_root_unique_keys (nodes_self _)
           (store_wf_alloc _ store_wf_empty)
           (building_alloc _ store_wf_empty)
           (cache_ok_alloc _ _ _ (cache_ok_empty _ _))).
Defined.

(** C9: over one document and tree with distinct node identities, a
    request has the same result on the empty cache as on any cache left by
    earlier requests and scope collections; running it touches no array
    that existed and only adds cache entries, and running it once more
    gives the same result again. *)
Theorem cold_and_warm_agree root context st :
  unique_keys root -> resolved_in root (resolveInner context) ->
  warm (state_doc context) root st ->
  fst (localCompletionSource context st) =
    fst (localCompletionSource context empty_store) /\
  (forall l, frame l [] st (snd (localCompletionSource context st))) /\
  fst (localCompletionSource context (snd (localCompletionSource context st))) =
    fst (localCompletionSource context st).
Proof.
  intros Hkeys Hres Hwarm.
  destruct (warm_consistent _ _ _ Hkeys Hwarm) as [Hwf Hok].
  destruct (localCompletionSource_sound root context st) as (Hr & Hwf' & Hok');
    [done..|].
  destruct (localCompletionSource_sound root context empty_store) as (Hr0 & _);
    [done|done|apply store_wf_empty|apply cache_ok_empty|].
  destruct (localCompletionSource_sound root context
              (snd (localCompletionSource context st))) as (Hr2 & _); [done..|].
  split; [congruence|]. split; [|congruence].
  intros l. apply localCompletionSource_frame.
Qed.

Lemma cold_and_warm_agree_witness :
  fst (localCompletionSource (Example.request false)
         (snd (localCompletionSource (mkContext Example.text 18 true Example.at_brace)
                 empty_store))) =
  fst (localCompletionSource (Example.request false) empty_store).
Proof.
  refine (proj1 (cold_and_warm_agree Example.script (Example.request false)
                   (snd (localCompletionSource
                           (mkContext Example.text 18 true Example.at_brace)
                           empty_store))
                   Example_unique_keys Example_at_bar _)).
  apply warm_request; [apply warm_cold|reflexivity|apply Example_at_brace].
Defined.

(** C10: a call of [getScope] that misses the cache returns a fresh array
    and leaves it cached under the identity of its argument, in a store
    that is well formed again; earlier entries stay as they were; when the walk makes no recursive call that
    entry is the only one added; every large anonymous node the walk
    recursed on is cached too, under its own identity, although it is no
    scope node, and in a fresh array when it was not cached before; keys
    are only added for the argument and for large anonymous nodes below
    it; and any later call on the same node returns the cached array
    without changing the store. *)
Theorem getScope_miss_caches_result doc t st :
  store_wf st -> cache st !! key t = None ->
  let l := fst (getScope doc t st) in
  let st' := snd (getScope doc t st) in
  l = length (arrays st) /\
  store_wf st' /\
  cache st' !! key t = Some l /\
  cache st ⊆ cache st' /\
  (flat_map nested_scopes (children t) = [] -> cache st' = <[key t := l]> (cache st)) /\
  (forall a, a ∈ flat_map nested_scopes (children t) ->
     name a = ""%string /\ ScopeNodes_has (name a) = false /\
     exists la, cache st' !! key a = Some la /\
       (cache st !! key a = None -> length (arrays st) <= la < length (arrays st'))) /\
  (forall k, is_Some (cache st' !! k) ->
     is_Some (cache st !! k) \/ k = key t \/
     exists a, a ∈ flat_map nodes (children t) /\ big_anonymous a = true /\ key a = k) /\
  (forall st2, later st' st2 -> getScope doc t st2 = (l, st2)).
Proof.
  intros Hwf Hmiss l st'.
  pose proof (getScope_cached doc t st) as Hk.
  pose proof (frame_store_wf _ _ _ _ (getScope_frame doc t st 0) Hwf) as Hwf'.
  pose proof (getScope_frame doc t st 0) as (_ & _ & _ & Hsub & Hnew).
  destruct (getScope_cache_effect doc t) with (st := st) as (Hdom & Hcalls);
    [apply Forall_forall; intros c _; apply enter_cache_effect|].
  destruct (Hcalls Hmiss) as [Hcached Hone].
  assert (Hl : l = length (arrays st)).
  { subst l. by rewrite (getScope_miss _ _ _ Hmiss). }
  split; [done|]. split; [done|]. split; [done|]. split; [done|].
  split; [intros Hnone; rewrite Hl; by apply Hone|].
  split; [|split; [done|]].
  - intros a Ha. destruct (Hcached a Ha) as [la Hla].
    apply elem_of_flat_map in Ha as (c & _ & Ha).
    apply nested_scopes_big in Ha.
    apply andb_prop in Ha as [Hname%String.eqb_eq _].
    rewrite Hname. split; [done|]. split; [done|].
    exists la. split; [done|]. intros Hnot.
    destruct (Hnew _ _ Hla) as [Hold|?]; [congruence|done].
  - intros st2 Hlater. apply getScope_hit.
    destruct (later_frame _ _ 0 Hlater) as (_ & _ & _ & Hsub2 & _).
    by eapply lookup_weaken.
Qed.

Lemma getScope_miss_caches_result_witness :
  cache (snd (getScope Wide.text Wide.script empty_store)) !! key Wide.script =
    Some (fst (getScope Wide.text Wide.script empty_store)) /\
  is_Some (cache (snd (getScope Wide.text Wide.script empty_store)) !! key Wide.large).
Proof.
  destruct (getScope_miss_caches_result Wide.text Wide.script empty_store)
    as (_ & _ & Hk & _ & _ & Hcalls & _); [apply store_wf_empty|reflexivity|].
  split; [exact Hk|].
  destruct (Hcalls Wide.large) as (_ & _ & la & Hla & _).
  - apply list_elem_of_In. left. reflexivity.
  - exists la. exact Hla.
Defined.

(** * Further properties of the module *)

(** ** The identifier pattern *)

Lemma Identifier_test_iff s :
  Identifier_test s = true <->
  s <> [] /\ Forall (fun c => class_w c = true \/ in_range 161 65535 c = true) s.
Proof.
  split; [apply Identifier_test_chars|].
  intros [Hne Hall]. destruct s as [|c rest]; [done|].
  apply Forall_cons in Hall as [Hc Hrest]. cbn [Identifier_test].
  apply andb_true_intro. split.
  - unfold Identifier_first. by apply orb_true_iff.
  - apply forallb_forall. intros x Hx%list_elem_of_In.
    rewrite Forall_forall in Hrest. unfold Identifier_rest.
    destruct (Hrest x Hx) as [->| ->]; [done|]. by rewrite orb_true_r.
Qed.

Lemma Identifier_rejects_dollar s : In 36%N s -> Identifier_test s = false.
Proof.
  intros Hin. apply not_true_is_false. intros [_ Hall]%Identifier_test_iff.
  rewrite Forall_forall in Hall.
  apply list_elem_of_In, Hall in Hin. by destruct Hin.
Qed.

(** X1: [Identifier] accepts exactly the strings that are not empty and
    consist of ASCII letters, digits, underscores and code units from
    [\xa1] to [\uffff]; a string with a dollar sign in it is rejected. *)
Theorem Identifier_test_exact s :
  (Identifier_test s = true <->
   s <> [] /\
   Forall (fun c => class_w c = true \/ in_range 161 65535 c = true) s) /\
  (In 36%N s -> Identifier_test s = false).
Proof. split; [apply Identifier_test_iff|apply Identifier_rejects_dollar]. Qed.

Lemma Identifier_test_exact_witness :
  Identifier_test (js "my_var2") = true /\ Identifier_test (js "$my_var") = false.
Proof.
  split.
  - apply (proj1 (Identifier_test_exact (js "my_var2"))). split; [done|].
    repeat constructor.
  - apply (proj2 (Identifier_test_exact (js "$my_var"))). by left.
Defined.

(** ** When the completion source fires *)

Lemma not_excluded_false s :
  ~ In s dontComplete -> (indexOf dontComplete s >? -1)%Z = false.
Proof. intros H. apply not_true_is_false. by rewrite excluded_iff. Qed.

Lemma word_token_run doc inner st :
  ~ In (name (node inner)) dontComplete ->
  name (node inner) = "VariableName"%string \/
  ((to (node inner) - from (node inner) < 20)%Z /\
   Identifier_test (sliceString doc (from (node inner)) (to (node inner))) = true) ->
  forall c e,
    localCompletionSource (mkContext doc c e inner) st =
    (Some (mkResult (fst (ancestor_loop doc (node inner :: ancestors inner) [] st))
                    (from (node inner)) Identifier_test),
     snd (ancestor_loop doc (node inner :: ancestors inner) [] st)).
Proof.
  intros Hex%not_excluded_false Hword c e.
  assert (Hw : isWord_of (mkContext doc c e inner) = true).
  { unfold isWord_of. cbn [resolveInner state_doc].
    apply orb_true_iff. destruct Hword as [->|[Hlen Hpat]]; [by left|right].
    apply andb_true_intro. split; [by apply Z.ltb_lt|done]. }
  unfold localCompletionSource. cbn [resolveInner state_doc explicit pos].
  rewrite Hex, Hw. cbn [negb andb].
  by destruct (ancestor_loop _ _ _ _).
Qed.

(** X2: on a token that counts as a word (a VariableName node, or a node
    shorter than 20 whose text the pattern accepts) outside the excluded
    kinds, whatever the kinds of its ancestors, the source answers a
    result that starts at the token's start, and neither the explicit flag
    nor the cursor offset changes the answer or the store. *)
Theorem word_token_completes doc cursor flag inner st :
  ~ In (name (node inner)) dontComplete ->
  name (node inner) = "VariableName"%string \/
  ((to (node inner) - from (node inner) < 20)%Z /\
   Identifier_test (sliceString doc (from (node inner)) (to (node inner))) = true) ->
  (exists r,
     fst (localCompletionSource (mkContext doc cursor flag inner) st) = Some r /\
     result_from r = from (node inner) /\
     validFor r = Identifier_test) /\
  (forall cursor2 explicit2,
     localCompletionSource (mkContext doc cursor2 explicit2 inner) st =
     localCompletionSource (mkContext doc cursor flag inner) st).
Proof.
  intros Hex Hword. pose proof (word_token_run doc inner st Hex Hword) as Hrun.
  split.
  - rewrite Hrun. cbn [fst]. eauto.
  - intros c2 e2. by rewrite !Hrun.
Qed.

Lemma word_token_completes_witness :
  localCompletionSource (mkContext Example.text 26 true Example.at_bar) empty_store =
  localCompletionSource (mkContext Example.text 28 false Example.at_bar) empty_store.
Proof.
  refine (proj2 (word_token_completes Example.text 28 false Example.at_bar
                   empty_store _ _) 26%Z true).
  - cbn. intuition discriminate.
  - left. reflexivity.
Defined.

(** X3: the source answers null exactly when the resolved node has an
    excluded kind, or the token is no word and the request is not
    explicit; and a request answered with null leaves the store as it
    was. *)
Theorem null_result_iff context st :
  (fst (localCompletionSource context st) = None <->
   In (name (node (resolveInner context))) dontComplete \/
   (isWord_of context = false /\ explicit context = false)) /\
  (fst (localCompletionSource context st) = None ->
   snd (localCompletionSource context st) = st).
Proof.
  unfold localCompletionSource.
  destruct (indexOf dontComplete (name (node (resolveInner context))) >? -1)%Z
    eqn:Hex.
  - apply excluded_iff in Hex. cbn [fst snd]. split; [|done]. split; auto.
  - assert (Hnot : ~ In (name (node (resolveInner context))) dontComplete).
    { rewrite <- excluded_iff. congruence. }
    destruct (isWord_of context) eqn:Hw, (explicit context) eqn:He; cbn [negb andb];
      try (destruct (ancestor_loop _ _ _ _); cbn [fst snd];
           split; [|done]; split; [done|]; intros [?|[? ?]]; done).
    cbn [fst snd]. split; [|done]. split; auto.
Qed.

Lemma null_result_iff_witness :
  snd (localCompletionSource (mkContext Example.text 18 false Example.at_brace)
         empty_store) = empty_store.
Proof.
  refine (proj2 (null_result_iff (mkContext Example.text 18 false Example.at_brace)
                   empty_store) _).
  reflexivity.
Defined.

Lemma ancestor_loop_no_scope doc chain options st :
  List.filter (fun t => ScopeNodes_has (name t)) chain = [] ->
  ancestor_loop doc chain options st = (options, st).
Proof.
  induction chain as [|p up IH]; cbn [ancestor_loop List.filter]; [done|].
  destruct (ScopeNodes_has (name p)); [done|apply IH].
Qed.

(** X9: a request that fires although no node on the chain of the resolved
    node is a scope node is answered with an empty list of options, not
    with null, and without touching the store. *)
Theorem no_scope_gives_empty_options context st :
  scope_chain (resolveInner context) = [] ->
  ~ In (name (node (resolveInner context))) dontComplete ->
  isWord_of context = true \/ explicit context = true ->
  localCompletionSource context st =
  (Some (mkResult []
           (if isWord_of context then from (node (resolveInner context))
            else pos context)
           Identifier_test), st).
Proof.
  intros Hnone Hex%not_excluded_false Hfire.
  unfold localCompletionSource. rewrite Hex.
  assert (Hgo : negb (isWord_of context) && negb (explicit context) = false).
  { destruct Hfire as [-> | ->]; [done|]. by rewrite andb_false_r. }
  rewrite Hgo. unfold scope_chain in Hnone.
  by rewrite (ancestor_loop_no_scope _ _ _ _ Hnone).
Qed.

Lemma no_scope_gives_empty_options_witness :
  localCompletionSource (mkContext (js "$x;") 4 true Edited.stray) empty_store =
  (Some (mkResult [] 4%Z Identifier_test), empty_store).
Proof.
  refine (no_scope_gives_empty_options (mkContext (js "$x;") 4 true Edited.stray)
            empty_store _ _ _).
  - reflexivity.
  - cbn. intuition discriminate.
  - right. reflexivity.
Defined.

(** ** The cache over time *)

Lemma ancestor_loop_hits doc chain : forall options st,
  (forall p, p ∈ List.filter (fun t => ScopeNodes_has (name t)) chain ->
     is_Some (cache st !! key p)) ->
  snd (ancestor_loop doc chain options st) = st.
Proof.
  induction chain as [|p up IH]; intros options st Hall;
    cbn [ancestor_loop List.filter] in *; [done|].
  destruct (ScopeNodes_has (name p)); [|by apply IH].
  destruct (Hall p) as [l Hl]; [apply list_elem_of_here|].
  rewrite (getScope_hit _ _ _ _ Hl). apply IH.
  intros q Hq. apply Hall. by apply list_elem_of_further.
Qed.

Lemma ancestor_loop_caches doc chain : forall options st p,
  p ∈ List.filter (fun t => ScopeNodes_has (name t)) chain ->
  is_Some (cache (snd (ancestor_loop doc chain options st)) !! key p).
Proof.
  induction chain as [|q up IH]; intros options st p Hp;
    cbn [ancestor_loop List.filter] in *; [by apply elem_of_nil in Hp|].
  destruct (ScopeNodes_has (name q)); [|by apply IH].
  pose proof (getScope_cached doc q st) as Hk.
  destruct (getScope doc q st) as [scope st1]. cbn [fst snd] in Hk.
  apply elem_of_cons in Hp as [->|Hp]; [|by apply IH].
  destruct (ancestor_loop_frame doc up (options ++ read scope st1) st1 0)
    as (_ & _ & _ & Hsub & _).
  eapply lookup_weaken_is_Some; [by eexists|done].
Qed.

(** X4: once a request has been answered with a result, every scope node
    on its chain is cached, so a further request whose scope nodes are
    among those (the same request again, or one from deeper or higher on
    the same chain, for any document text, offset and flag) changes
    nothing in the store. *)
Theorem repeated_request_hits context context2 st :
  is_Some (fst (localCompletionSource context st)) ->
  (forall p, p ∈ scope_chain (resolveInner context2) ->
             p ∈ scope_chain (resolveInner context)) ->
  (forall p, p ∈ scope_chain (resolveInner context) ->
     is_Some (cache (snd (localCompletionSource context st)) !! key p)) /\
  snd (localCompletionSource context2 (snd (localCompletionSource context st))) =
  snd (localCompletionSource context st).
Proof.
  intros Hsome Hsub.
  assert (Hcached : forall p, p ∈ scope_chain (resolveInner context) ->
    is_Some (cache (snd (localCompletionSource context st)) !! key p)).
  { intros p Hp. unfold localCompletionSource in *.
    destruct (_ >? _)%Z; [by destruct Hsome|].
    destruct (_ && _); [by destruct Hsome|].
    pose proof (ancestor_loop_caches (state_doc context) _ [] st p Hp) as Hc.
    by destruct (ancestor_loop _ _ _ _). }
  split; [done|].
  set (st1 := snd (localCompletionSource context st)) in *.
  unfold localCompletionSource at 1.
  destruct (_ >? _)%Z; [done|]. destruct (_ && _); [done|].
  pose proof (ancestor_loop_hits (state_doc context2)
                (node (resolveInner context2) :: ancestors (resolveInner context2))
                [] st1) as Hhit.
  destruct (ancestor_loop _ _ _ st1). cbn [snd] in *.
  apply Hhit. intros p Hp. by apply Hcached, Hsub.
Qed.

Lemma repeated_request_hits_witness :
  snd (localCompletionSource (mkContext Edited.text 18 true Example.at_brace)
         (snd (localCompletionSource (Example.request false) empty_store))) =
  snd (localCompletionSource (Example.request false) empty_store).
Proof.
  refine (proj2 (repeated_request_hits (Example.request false)
                   (mkContext Edited.text 18 true Example.at_brace)
                   empty_store _ _)).
  - vm_compute. eexists. reflexivity.
  - intros p Hp. apply list_elem_of_In. apply list_elem_of_In in Hp.
    cbn in *. intuition.
Defined.

(** X5: no call into the module removes or redirects a cache entry or
    changes an array that is cached: at any later time every entry of a
    well-formed store is still there, its array holds what it held, and
    the store is well formed. *)
Theorem cache_entries_are_permanent st st2 k l :
  store_wf st -> later st st2 -> cache st !! k = Some l ->
  cache st2 !! k = Some l /\ read l st2 = read l st /\ store_wf st2.
Proof.
  intros Hwf Hlater Hk.
  pose proof (later_frame _ _ l Hlater) as Hf.
  split; [|split].
  - destruct Hf as (_ & _ & _ & Hsub & _). by eapply lookup_weaken.
  - rewrite (frame_read _ _ _ _ Hf), app_nil_r; [done|]. by eapply Hwf.
  - by eapply frame_store_wf.
Qed.

Lemma cache_entries_are_permanent_witness :
  cache (snd (localCompletionSource (Example.request true)
                (snd (getScope Example.text Example.script empty_store))))
    !! key Example.script = Some 0 /\
  read 0 (snd (localCompletionSource (Example.request true)
                 (snd (getScope Example.text Example.script empty_store)))) =
  read 0 (snd (getScope Example.text Example.script empty_store)).
Proof.
  destruct (cache_entries_are_permanent
              (snd (getScope Example.text Example.script empty_store))
              (snd (localCompletionSource (Example.request true)
                      (snd (getScope Example.text Example.script empty_store))))
              (key Example.script) 0) as (H1 & H2 & _).
  - eapply frame_store_wf; [apply (getScope_frame _ _ _ 0)|apply store_wf_empty].
  - apply later_request, later_now.
  - reflexivity.
  - split; [exact H1|exact H2].
Defined.

(** X6: the cache is keyed by the node alone: on a cached node [getScope]
    returns the cached array and changes nothing whatever document it is
    given, so the labels are still those cut from the document of the call
    that filled the entry. *)
Theorem cache_hit_ignores_document doc1 doc2 root t st :
  unique_keys root -> in_tree root t ->
  store_wf st -> cache_ok doc1 (in_tree root) st ->
  getScope doc2 t (snd (getScope doc1 t st)) =
    (fst (getScope doc1 t st), snd (getScope doc1 t st)) /\
  read (fst (getScope doc2 t (snd (getScope doc1 t st))))
       (snd (getScope doc2 t (snd (getScope doc1 t st)))) =
    scope_candidates doc1 t.
Proof.
  intros Hkeys Ht Hwf Hok.
  destruct (getScope_sound doc1 root Hkeys t st Ht Hwf Hok) as (Hr & _).
  pose proof (getScope_hit doc2 t _ _ (getScope_cached doc1 t st)) as Hhit.
  split; [done|]. by rewrite Hhit.
Qed.

Lemma cache_hit_ignores_document_witness :
  read (fst (getScope Edited.text Example.script
               (snd (getScope Example.text Example.script empty_store))))
       (snd (getScope Edited.text Example.script
               (snd (getScope Example.text Example.script empty_store)))) =
  scope_candidates Example.text Example.script.
Proof.
  refine (proj2 (cache_hit_ignores_document Example.text Edited.text Example.script
                   Example.script empty_store Example_unique_keys _
                   store_wf_empty (cache_ok_empty _ _))).
  apply nodes_self.
Defined.

(** ** What a scope list holds *)

Lemma not_scope_not_definition n :
  ScopeNodes_has n = false ->
  String.eqb n "FunctionDefinition" = false /\ String.eqb n "ClassDefinition" = false.
Proof.
  intros H. split.
  - destruct (String.eqb_spec n "FunctionDefinition") as [->|]; [done|done].
  - destruct (String.eqb_spec n "ClassDefinition") as [->|]; [done|done].
Qed.

Lemma contribution_iff doc t c :
  c ∈ contribution doc t <-> exists d, visible t d /\ defines doc d c.
Proof.
  split.
  - revert c. induction t as [k n f e cs IH] using Tree_ind. intros c.
    rewrite contribution_unfold. set (t := Node k n f e cs).
    change (name t) with n. unfold name_candidate.
    destruct (String.eqb_spec n "FunctionDefinition") as [Hn|_].
    { destruct (getChild "VariableName" t) as [id|] eqn:Hid;
        [|by intros ?%elem_of_nil].
      intros ->%list_elem_of_singleton. exists t. split; [constructor|].
      exists id. auto. }
    destruct (String.eqb_spec n "ClassDefinition") as [Hn|_].
    { destruct (getChild "VariableName" t) as [id|] eqn:Hid;
        [|by intros ?%elem_of_nil].
      intros ->%list_elem_of_singleton. exists t. split; [constructor|].
      exists id. auto. }
    destruct (ScopeNodes_has n) eqn:Hscope; [by intros ?%elem_of_nil|].
    intros (ch & Hch & Hc)%elem_of_flat_map.
    rewrite Forall_forall in IH. destruct (IH ch Hch c Hc) as (d & Hvis & Hdef).
    exists d. split; [|done]. by apply (visible_below t ch d).
  - intros (d & Hvis & Hdef). induction Hvis as [t|t ch d Hscope Hch _ IH].
    + destruct Hdef as (id & Hid & Hlabel & Hkind).
      rewrite contribution_unfold. unfold name_candidate. rewrite Hid.
      destruct c as [lab ty]. cbn [label type] in *. subst lab.
      destruct Hkind as [[-> ->]|[-> ->]]; apply list_elem_of_here.
    + rewrite contribution_unfold.
      destruct (not_scope_not_definition _ Hscope) as [-> ->]. rewrite Hscope.
      apply elem_of_flat_map. exists ch. auto.
Qed.

(** X7: under a consistent cache the array [getScope] returns for a node
    holds exactly the candidates of the definition nodes visible from it:
    the FunctionDefinition and ClassDefinition nodes with a VariableName
    child that lie below a child of the node with no scope node on the
    way, each labelled with the text of that child.  A definition inside a
    nested Body, or below any other scope node, gives nothing. *)
Theorem scope_list_is_visible_definitions doc root s st c :
  unique_keys root -> in_tree root s ->
  store_wf st -> cache_ok doc (in_tree root) st ->
  c ∈ read (fst (getScope doc s st)) (snd (getScope doc s st)) <->
  exists child d, child ∈ children s /\ visible child d /\ defines doc d c.
Proof.
  intros Hkeys Hs Hwf Hok.
  destruct (getScope_sound doc root Hkeys s st Hs Hwf Hok) as (-> & _).
  unfold scope_candidates. rewrite elem_of_flat_map. split.
  - intros (child & Hchild & (d & Hvis & Hdef)%contribution_iff). eauto.
  - intros (child & d & Hchild & Hvis & Hdef). exists child. split; [done|].
    apply contribution_iff. eauto.
Qed.

Lemma scope_list_is_visible_definitions_witness :
  Example.foo_candidate ∈
    read (fst (getScope Example.text Example.script empty_store))
         (snd (getScope Example.text Example.script empty_store)) /\
  ~ Example.bar_candidate ∈
    read (fst (getScope Example.text Example.script empty_store))
         (snd (getScope Example.text Example.script empty_store)).
Proof.
  pose proof (scope_list_is_visible_definitions Example.text Example.script
                Example.script empty_store) as H.
  split.
  - apply (H Example.foo_candidate Example_unique_keys (nodes_self _)
             store_wf_empty (cache_ok_empty _ _)).
    exists Example.foo, Example.foo. split; [apply list_elem_of_here|].
    split; [constructor|]. exists (Node 4 "VariableName" 9 12 []).
    repeat split. by left.
  - intros Hin.
    apply (H Example.bar_candidate Example_unique_keys (nodes_self _)
             store_wf_empty (cache_ok_empty _ _)) in Hin
      as (child & d & Hchild & Hvis & Hdef).
    apply list_elem_of_singleton in Hchild. subst child.
    inversion Hvis as [|? ? ? Hscope]; subst.
    + destruct Hdef as (id & _ & _ & [[_ Hty]|[Hn _]]); discriminate.
    + discriminate Hscope.
Defined.

(** X8: under a consistent cache the visit of an anonymous node appends
    to the array under construction exactly what its children contribute,
    above the threshold of 8192 as below it: the detour through
    [getScope] for large nodes changes what is cached, not what is
    collected. *)
Theorem anonymous_node_is_transparent doc root l a st :
  unique_keys root -> in_tree root a -> name a = ""%string ->
  store_wf st -> building l st -> cache_ok doc (in_tree root) st ->
  read l (enter doc l a st) = read l st ++ flat_map (contribution doc) (children a) /\
  cache_ok doc (in_tree root) (enter doc l a st).
Proof.
  intros Hkeys Ha Hname Hwf Hb Hok.
  destruct (enter_sound doc (in_tree root) (in_tree_children root)
              (in_tree_key_inj root Hkeys) a l st) as (added & Hf & Hcond).
  destruct (Hcond Ha Hwf Hb Hok) as [-> Hok'].
  split; [|done].
  rewrite (frame_read _ _ _ _ Hf (proj1 Hb)). f_equal.
  rewrite contribution_unfold, Hname. reflexivity.
Qed.

Lemma Wide_unique_keys : unique_keys Wide.script.
Proof. apply (bool_decide_unpack _). vm_compute. exact I. Qed.

Lemma anonymous_node_is_transparent_witness :
  read 0 (enter Wide.text 0 Wide.large (snd (alloc empty_store))) =
    read 0 (snd (alloc empty_store)) ++ flat_map (contribution Wide.text) [Wide.foo] /\
  read 0 (enter Wide.text 0 Wide.small (snd (alloc empty_store))) =
    read 0 (snd (alloc empty_store)) ++ flat_map (contribution Wide.text) [Wide.bar].
Proof.
  split.
  - refine (proj1 (anonymous_node_is_transparent Wide.text Wide.script 0 Wide.large
                     (snd (alloc empty_store)) Wide_unique_keys _ eq_refl
                     (store_wf_alloc _ store_wf_empty)
                     (building_alloc _ store_wf_empty) _)).
    + solve_in_list.
    + apply cache_ok_alloc, cache_ok_empty.
  - refine (proj1 (anonymous_node_is_transparent Wide.text Wide.script 0 Wide.small
                     (snd (alloc empty_store)) Wide_unique_keys _ eq_refl
                     (store_wf_alloc _ store_wf_empty)
                     (building_alloc _ store_wf_empty) _)).
    + solve_in_list.
    + apply cache_ok_alloc, cache_ok_empty.
Defined.

(** ** Kind tags *)

Lemma all_tagged_push_all l cs st :
  Forall tagged cs -> all_tagged st -> all_tagged (push_all l cs st).
Proof.
  revert st. induction cs as [|c cs IH]; intros st Hcs Hst; [done|].
  apply Forall_cons in Hcs as [Hc Hcs].
  change (push_all l (c :: cs) st) with (push_all l cs (push l c st)).
  apply IH; [done|]. unfold all_tagged, push. cbn [arrays].
  apply Forall_alter; [done|]. intros a _ Ha. apply Forall_app. auto.
Qed.

Lemma all_tagged_read l st : all_tagged st -> Forall tagged (read l st).
Proof.
  intros Hst. unfold read. destruct (arrays st !! l) as [a|] eqn:Ha; [|done].
  by apply (Forall_lookup_1 _ _ _ _ Hst Ha).
Qed.

Lemma name_candidate_tagged doc ty t :
  ty = "function"%string \/ ty = "class"%string ->
  Forall tagged (name_candidate doc ty t).
Proof.
  intros Hty. unfold name_candidate.
  destruct (getChild "VariableName" t); [|done].
  constructor; [exact Hty|done].
Qed.

Lemma walk_children_tagged doc cs :
  Forall (fun t => forall l st, all_tagged st -> all_tagged (enter doc l t st)) cs ->
  forall l st, all_tagged st ->
    all_tagged (fold_left (fun s c => enter doc l c s) cs st).
Proof.
  induction 1 as [|c cs Hc _ IH]; intros l st Hst; cbn [fold_left]; auto.
Qed.

Lemma getScope_tagged_step doc t :
  Forall (fun t => forall l st, all_tagged st -> all_tagged (enter doc l t st))
         (children t) ->
  forall st, all_tagged st -> all_tagged (snd (getScope doc t st)).
Proof.
  intros IH st Hst. destruct (cache st !! key t) as [cached|] eqn:Hc.
  - by rewrite (getScope_hit _ _ _ _ Hc).
  - rewrite (getScope_miss _ _ _ Hc). cbn [snd]. unfold cache_set, all_tagged.
    cbn [arrays]. apply (walk_children_tagged doc _ IH).
    unfold all_tagged, alloc. cbn [snd arrays]. apply Forall_app. split; [done|].
    by repeat constructor.
Qed.

Lemma enter_tagged doc t :
  forall l st, all_tagged st -> all_tagged (enter doc l t st).
Proof.
  induction t as [k n f e cs IH] using Tree_ind. intros l st Hst.
  rewrite enter_unfold. cbn zeta. set (t := Node k n f e cs).
  change (name t) with n.
  pose proof (walk_children_tagged doc cs IH l st Hst) as Hwalk.
  destruct (String.eqb_spec n "") as [->|_]; cbn [negb].
  - destruct (to t - from t >? 8192)%Z; [|done].
    pose proof (getScope_tagged_step doc t IH st Hst) as Hst1.
    destruct (getScope doc t st) as [inner st1]. cbn [snd] in Hst1.
    apply all_tagged_push_all; [by apply all_tagged_read|done].
  - destruct (gatherCompletions_cases n) as [[-> ->]|[[-> ->]|(_ & _ & ->)]].
    + rewrite defID_def. cbn [orb].
      apply all_tagged_push_all; [apply name_candidate_tagged; by left|done].
    + rewrite defID_def. cbn [orb].
      apply all_tagged_push_all; [apply name_candidate_tagged; by right|done].
    + by destruct (ScopeNodes_has n).
Qed.

Lemma getScope_tagged doc t st :
  all_tagged st -> all_tagged (snd (getScope doc t st)).
Proof.
  apply getScope_tagged_step, Forall_forall. intros c _. apply enter_tagged.
Qed.

Lemma ancestor_loop_tagged doc chain : forall options st,
  Forall tagged options -> all_tagged st ->
  Forall tagged (fst (ancestor_loop doc chain options st)) /\
  all_tagged (snd (ancestor_loop doc chain options st)).
Proof.
  induction chain as [|p up IH]; intros options st Hopts Hst;
    cbn [ancestor_loop]; [done|].
  destruct (ScopeNodes_has (name p)); [|by apply IH].
  pose proof (getScope_tagged doc p st Hst) as Hst1.
  destruct (getScope doc p st) as [scope st1]. cbn [snd] in Hst1.
  apply IH; [|done]. apply Forall_app. split; [done|by apply all_tagged_read].
Qed.

Lemma localCompletionSource_tagged context st :
  all_tagged st ->
  all_tagged (snd (localCompletionSource context st)) /\
  forall r, fst (localCompletionSource context st) = Some r ->
            Forall tagged (options r).
Proof.
  intros Hst. unfold localCompletionSource.
  destruct (_ >? _)%Z; [done|]. destruct (_ && _); [done|].
  destruct (ancestor_loop_tagged (state_doc context)
              (node (resolveInner context) :: ancestors (resolveInner context))
              [] st) as [Hopts Hst']; [done..|].
  destruct (ancestor_loop _ _ _ _) as [opts st1]. cbn [fst snd] in *.
  split; [done|]. intros r [= <-]. done.
Qed.

Lemma later_tagged st1 st2 : later st1 st2 -> all_tagged st1 -> all_tagged st2.
Proof.
  induction 1 as [st|doc t st1 st2 _ IH|context st1 st2 _ IH]; intros Hst.
  - done.
  - by apply getScope_tagged, IH.
  - by apply localCompletionSource_tagged, IH.
Qed.

(** X10: local completion only ever offers functions and classes: in a
    store that calls into the module have built from the empty cache,
    whatever trees and documents they were for, every element of every
    array is tagged "function" or "class", and so is every option of
    every result.  No variable, parameter or other name is collected. *)
Theorem only_functions_and_classes st context r st' :
  later empty_store st ->
  localCompletionSource context st = (Some r, st') ->
  Forall tagged (options r) /\ all_tagged st'.
Proof.
  intros Hlater Hrun.
  assert (Hst : all_tagged st).
  { apply (later_tagged _ _ Hlater). constructor. }
  destruct (localCompletionSource_tagged context st Hst) as [Hst' Hopts].
  rewrite Hrun in Hst', Hopts. cbn [fst snd] in *. auto.
Qed.

Lemma only_functions_and_classes_witness :
  Forall tagged [Example.bar_candidate; Example.foo_candidate].
Proof.
  refine (proj1 (only_functions_and_classes
                   (snd (getScope Edited.text Wide.script empty_store))
                   (Example.request false)
                   (mkResult [Example.bar_candidate; Example.foo_candidate] 25
                      Identifier_test)
                   (snd (localCompletionSource (Example.request false)
                           (snd (getScope Edited.text Wide.script empty_store))))
                   _ _)).
  - apply later_getScope, later_now.
  - vm_compute. reflexivity.
Defined.

(** ** The pattern handed back against the token replaced *)

(** X11: for a VariableName token whose text has a dollar sign in it, the
    source answers a result that starts at the token's start, and the
    [validFor] pattern of that result rejects the very text between that
    start and the token's end. *)
Theorem dollar_variable_fails_validFor doc cursor flag inner st :
  ~ In (name (node inner)) dontComplete ->
  name (node inner) = "VariableName"%string ->
  In 36%N (sliceString doc (from (node inner)) (to (node inner))) ->
  exists r,
    fst (localCompletionSource (mkContext doc cursor flag inner) st) = Some r /\
    result_from r = from (node inner) /\
    validFor r (sliceString doc (result_from r) (to (node inner))) = false.
Proof.
  intros Hex Hname Hdollar.
  rewrite (word_token_run doc inner st Hex (or_introl Hname)). cbn [fst].
  eexists. split; [reflexivity|]. split; [reflexivity|].
  cbn [validFor result_from]. by apply Identifier_rejects_dollar.
Qed.

Lemma dollar_variable_fails_validFor_witness :
  exists r,
    fst (localCompletionSource
           (mkContext (js "$my_va") 6 false
              (mkSyntaxNode (Node 2 "VariableName" 0 6 []) [Node 1 "Script" 0 6 []]))
           empty_store) = Some r /\
    result_from r = 0%Z /\
    validFor r (sliceString (js "$my_va") (result_from r) 6) = false.
Proof.
  refine (dollar_variable_fails_validFor (js "$my_va") 6 false
            (mkSyntaxNode (Node 2 "VariableName" 0 6 []) [Node 1 "Script" 0 6 []])
            empty_store _ eq_refl _).
  - cbn. intuition discriminate.
  - left. reflexivity.
Defined.
